(** * TokenVisualizer: a shallow embedding of tokenizer.js

    The tokenizer module (class [TokenVisualizer]) is embedded as Rocq
    functions.  JavaScript values are modelled as follows.

    - A JS string is the list of its UTF-16 code units ([jsstring], each
      unit an integer in [0, 65535]); [text.length] is the length of the
      list and [text[i]] its i-th unit.
    - A JS number that holds an integer (token ids, counts, indices) is a
      [Z]; integer arithmetic on such numbers is exact in JS on the safe
      integer range.  The only non-integer arithmetic of the module, the
      compression ratio, is modelled with IEEE-754 binary64 operations
      ([SpecFloat]).
    - A JS [Map] is an insertion-ordered association list with unique keys
      ([JsMap]).
    - Arrays that are reachable from two places (the step arrays kept in
      [this.encodingSteps] / [this.decodingSteps] and returned to the
      caller) live in an explicit heap; methods that touch them are written
      in a small state monad.
    - Host built-ins whose tables are not part of the repository
      ([String.prototype.toLowerCase], [Number.prototype.toString]) are
      section variables.

    Of the user-interface module (ui.js) the two pieces of logic that do
    not touch the page are embedded as well: the reading of the token input
    ([handleTokenDecoding]) and the per-token text of the visualization
    ([updateVisualization]). *)

From Stdlib Require Import String Ascii.
From Stdlib Require Import ZArith List Bool Lia.
From Stdlib Require Import Sorting.Permutation Sorting.Sorted.
From Stdlib Require Import Floats.SpecFloat.
Import ListNotations.

Open Scope Z_scope.

(* ===================================================================== *)
(** * JavaScript strings *)
(* ===================================================================== *)

Definition jsstring := list Z.

(** A well-formed UTF-16 code unit. *)
Definition isCodeUnit (c : Z) : Prop := 0 <= c < 65536.

(** String literals of the source, written with Rocq's (8-bit) strings. *)
Definition str (s : string) : jsstring :=
  map (fun a => Z.of_N (N_of_ascii a)) (list_ascii_of_string s).

Fixpoint jsstring_eqb (s t : jsstring) : bool :=
  match s, t with
  | [], [] => true
  | c :: s', d :: t' => (c =? d) && jsstring_eqb s' t'
  | _, _ => false
  end.

(** [String.fromCharCode(n)] for an integer [n]: the one-unit string whose
    unit is [ToUint16(n)]. *)
Definition fromCharCode (n : Z) : jsstring := [n mod 65536].

Definition isHighSurrogate (c : Z) : bool := (55296 <=? c) && (c <=? 56319).
Definition isLowSurrogate (c : Z) : bool := (56320 <=? c) && (c <=? 57343).

(** [Array.from(s)]: the string iterator yields one element per code
    point, so a high surrogate followed by a low surrogate stays together
    in a two-unit element. *)
Fixpoint arrayFrom (s : jsstring) : list jsstring :=
  match s with
  | [] => []
  | c :: rest =>
      match rest with
      | d :: rest' =>
          if isHighSurrogate c && isLowSurrogate d
          then [c; d] :: arrayFrom rest'
          else [c] :: arrayFrom rest
      | [] => [[c]]
      end
  end.

(** [s.charCodeAt(0)].  Every element produced by [arrayFrom] is non-empty
    (lemma [arrayFrom_nonempty]); on the empty string JS answers NaN, which
    the module never reaches. *)
Definition charCodeAt0 (s : jsstring) : Z := hd 0 s.

(** [s.includes(t)]: [t] occurs in [s] as a contiguous substring. *)
Fixpoint startsWith (t s : jsstring) : bool :=
  match t, s with
  | [], _ => true
  | c :: t', d :: s' => (c =? d) && startsWith t' s'
  | _ :: _, [] => false
  end.

Fixpoint includes (s t : jsstring) : bool :=
  startsWith t s ||
  match s with
  | [] => false
  | _ :: s' => includes s' t
  end.

(** The regular expression [/\s/] on one code unit: ECMAScript WhiteSpace
    and LineTerminator code points. *)
Definition isWhitespace (c : Z) : bool :=
  ((9 <=? c) && (c <=? 13)) || (c =? 32) || (c =? 160) || (c =? 5760)
  || ((8192 <=? c) && (c <=? 8202)) || (c =? 8232) || (c =? 8233)
  || (c =? 8239) || (c =? 8287) || (c =? 12288) || (c =? 65279).

(** The character class of the second regular expression of
    [tokenizeWords]:  . , ! ? ; : double-quote ' ( ) [ ] { } - _ + = * /
    backslash | @ # $ % ^ & < > ~ backquote. *)
Definition punctuationClass : list Z :=
  [46; 44; 33; 63; 59; 58; 34; 39; 40; 41; 91; 93; 123; 125;
   45; 95; 43; 61; 42; 47; 92; 124; 64; 35; 36; 37; 94; 38;
   60; 62; 126; 96].

Definition isPunctuation (c : Z) : bool :=
  existsb (Z.eqb c) punctuationClass.

(** One concrete instance of [toLowerCase]: the mapping on ASCII letters,
    every other unit left alone.  It agrees with the host function on
    strings of ASCII units. *)
Definition asciiLowerUnit (c : Z) : Z :=
  if (65 <=? c) && (c <=? 90) then c + 32 else c.

Definition asciiLower (s : jsstring) : jsstring := map asciiLowerUnit s.


(** Decimal rendering of an integer, the value of [Number.prototype.toString]
    on integers of magnitude below 10^21. *)
Fixpoint decimalDigits (fuel : nat) (n : Z) (acc : jsstring) : jsstring :=
  match fuel with
  | O => acc
  | S fuel' =>
      let acc' := (48 + n mod 10) :: acc in
      if n / 10 =? 0 then acc' else decimalDigits fuel' (n / 10) acc'
  end.

Definition decimalNat (n : Z) : jsstring :=
  decimalDigits (S (Z.to_nat (Z.log2 n))) n [].

Definition decimalString (n : Z) : jsstring :=
  if n <? 0 then 45 :: decimalNat (- n) else decimalNat n.

(* ===================================================================== *)
(** * JavaScript Map *)
(* ===================================================================== *)

(** A [Map] keeps its entries in insertion order; [set] on a key that is
    already present replaces the value in place. *)
Module JsMap.
Section Defs.
Context {K V : Type}.
Variable eqb : K -> K -> bool.

Definition t := list (K * V).

Definition empty : t := [].

Fixpoint get (k : K) (m : t) : option V :=
  match m with
  | [] => None
  | (k', v) :: m' => if eqb k k' then Some v else get k m'
  end.

Definition has (k : K) (m : t) : bool :=
  match get k m with Some _ => true | None => false end.

Fixpoint set (k : K) (v : V) (m : t) : t :=
  match m with
  | [] => [(k, v)]
  | (k', v') :: m' =>
      if eqb k k' then (k', v) :: m' else (k', v') :: set k v m'
  end.

Definition entries (m : t) : list (K * V) := m.

Definition size (m : t) : Z := Z.of_nat (length m).
End Defs.
Arguments t : clear implicits.
End JsMap.

Definition StringMap := JsMap.t jsstring Z.
Definition NumberMap := JsMap.t Z jsstring.

(* ===================================================================== *)
(** * Seed lists of [initializeVocabulary] *)
(* ===================================================================== *)

Definition specialTokens : list jsstring :=
  map str
    ["<PAD>"; "<UNK>"; "<START>"; "<END>"; "<MASK>";
     "<CLS>"; "<SEP>"; "<NEWLINE>"; "<TAB>"; "<SPACE>"]%string.

Definition commonWords : list jsstring :=
  map str
    ["the"; "be"; "to"; "of"; "and"; "a"; "in"; "that"; "have"; "i";
     "it"; "for"; "not"; "on"; "with"; "he"; "as"; "you"; "do"; "at";
     "this"; "but"; "his"; "by"; "from"; "they"; "we"; "say"; "her"; "she";
     "or"; "an"; "will"; "my"; "one"; "all"; "would"; "there"; "their";
     "what"; "so"; "up"; "out"; "if"; "about"; "who"; "get"; "which"; "go";
     "me"; "when"; "make"; "can"; "like"; "time"; "no"; "just"; "him"; "know";
     "take"; "people"; "into"; "year"; "your"; "good"; "some"; "could"; "them";
     "see"; "other"; "than"; "then"; "now"; "look"; "only"; "come"; "its"; "over";
     "think"; "also"; "back"; "after"; "use"; "two"; "how"; "our"; "work";
     "first"; "well"; "way"; "even"; "new"; "want"; "because"; "any"; "these";
     "give"; "day"; "most"; "us"; "is"; "was"; "are"; "been"; "has"; "had";
     "were"; "said"; "each"; "which"; "their"; "time"; "will"; "about"; "if";
     "up"; "out"; "many"; "then"; "them"; "these"; "so"; "some"; "her"; "would";
     "make"; "like"; "into"; "him"; "has"; "two"; "more"; "very"; "what"; "know";
     "just"; "first"; "get"; "over"; "think"; "where"; "much"; "go"; "well";
     "were"; "been"; "have"; "had"; "has"; "said"; "each"; "which"; "she";
     "do"; "how"; "their"; "if"; "will"; "up"; "other"; "about"; "out"; "many"
    ]%string.

(** The last three entries are the newline, tab and space characters; the
    double quote is unit 34 and the backslash unit 92. *)
Definition punctuation : list jsstring :=
  [ [46]; [44]; [33]; [63]; [59]; [58]; [34]; [39]; [40]; [41]; [91]; [93];
    [123]; [125]; [45]; [95]; [43]; [61]; [42]; [47]; [92]; [124]; [64];
    [35]; [36]; [37]; [94]; [38]; [60]; [62]; [126]; [96]; [10]; [9]; [32] ].

(* ===================================================================== *)
(** * Result objects, step records and the heap *)
(* ===================================================================== *)

(** [step.output] of an encoding step: the single id of a vocabulary hit,
    or the array of ids of the ASCII fallback. *)
Inductive EncOutput :=
| OutToken (tokenId : Z)
| OutAscii (asciiTokens : list Z).

Module EncStep.
Record t := { step : Z; input : jsstring; process : jsstring;
              output : EncOutput }.
End EncStep.

Module DecStep.
Record t := { step : Z; input : Z; process : jsstring;
              output : jsstring }.
End DecStep.

(** Heap objects: the arrays [encodingSteps] and [decodingSteps] point to.
    A location is a position in the heap; allocation appends. *)
Inductive Obj :=
| EncArray (xs : list EncStep.t)
| DecArray (xs : list DecStep.t).

Definition loc := nat.
Definition Heap := list Obj.

Module TokenVisualizer.
Record t := { vocabulary : StringMap; reverseVocabulary : NumberMap;
              asciiOffset : Z;
              encodingSteps : loc; decodingSteps : loc }.
End TokenVisualizer.

Record World := { heap : Heap; this : TokenVisualizer.t }.

(** The object [encodeText] returns.  The early return for an empty text
    has only [tokens] and [steps]; the other three properties are then
    absent ([None], JS [undefined]). *)
Module EncodeResult.
Record t := { tokens : list Z; steps : loc;
              originalText : option jsstring;
              tokenCount : option Z;
              characterCount : option Z }.
End EncodeResult.

Module DecodeResult.
Record t := { text : jsstring; steps : loc; tokenCount : option Z }.
End DecodeResult.

(** [compressionRatio] is the number [0] for an empty text and otherwise the
    string [toFixed(1)] returns. *)
Inductive Ratio :=
| RatioNumber (n : Z)
| RatioString (s : jsstring).

Module Stats.
Record t := { characterCount : Z; tokenCount : Z;
              compressionRatio : Ratio; tokens : list Z }.
End Stats.

Inductive EntryType := vocabularyType | asciiType.

Module VocabEntry.
Record t := { character : jsstring; token : Z; type : EntryType }.
End VocabEntry.

(* ===================================================================== *)
(** * The state monad of the methods *)
(* ===================================================================== *)

Definition M (A : Type) : Type := World -> A * World.

Definition ret {A} (a : A) : M A := fun w => (a, w).

Definition bind {A B} (m : M A) (k : A -> M B) : M B :=
  fun w => let (a, w') := m w in k a w'.

Declare Scope js_scope.
Delimit Scope js_scope with js.
Notation "x <- m ;; k" := (bind m (fun x => k))
  (at level 61, m at next level, right associativity) : js_scope.
Notation "m ;; k" := (bind m (fun _ => k))
  (at level 61, right associativity) : js_scope.

Definition getThis : M TokenVisualizer.t := fun w => (this w, w).

(** [[]]: a fresh array. *)
Definition newArray (o : Obj) : M loc :=
  fun w => (List.length (heap w), {| heap := heap w ++ [o]; this := this w |}).

(** [this.encodingSteps = l] and [this.decodingSteps = l] *)
Definition withEncodingSteps (self : TokenVisualizer.t) (l : loc)
  : TokenVisualizer.t :=
  {| TokenVisualizer.vocabulary := TokenVisualizer.vocabulary self;
     TokenVisualizer.reverseVocabulary := TokenVisualizer.reverseVocabulary self;
     TokenVisualizer.asciiOffset := TokenVisualizer.asciiOffset self;
     TokenVisualizer.encodingSteps := l;
     TokenVisualizer.decodingSteps := TokenVisualizer.decodingSteps self |}.

Definition withDecodingSteps (self : TokenVisualizer.t) (l : loc)
  : TokenVisualizer.t :=
  {| TokenVisualizer.vocabulary := TokenVisualizer.vocabulary self;
     TokenVisualizer.reverseVocabulary := TokenVisualizer.reverseVocabulary self;
     TokenVisualizer.asciiOffset := TokenVisualizer.asciiOffset self;
     TokenVisualizer.encodingSteps := TokenVisualizer.encodingSteps self;
     TokenVisualizer.decodingSteps := l |}.

Definition setEncodingSteps (l : loc) : M unit :=
  fun w => (tt, {| heap := heap w; this := withEncodingSteps (this w) l |}).

Definition setDecodingSteps (l : loc) : M unit :=
  fun w => (tt, {| heap := heap w; this := withDecodingSteps (this w) l |}).

Fixpoint updateAt (l : loc) (f : Obj -> Obj) (h : Heap) : Heap :=
  match h, l with
  | [], _ => []
  | o :: h', O => f o :: h'
  | o :: h', S l' => o :: updateAt l' f h'
  end.

Definition pushEnc (s : EncStep.t) (o : Obj) : Obj :=
  match o with
  | EncArray xs => EncArray (xs ++ [s])
  | DecArray xs => DecArray xs
  end.

Definition pushDec (s : DecStep.t) (o : Obj) : Obj :=
  match o with
  | DecArray xs => DecArray (xs ++ [s])
  | EncArray xs => EncArray xs
  end.

(** [this.encodingSteps.push(step)] *)
Definition pushEncodingStep (s : EncStep.t) : M unit :=
  fun w =>
    (tt, {| heap := updateAt (TokenVisualizer.encodingSteps (this w)) (pushEnc s) (heap w);
            this := this w |}).

(** [this.decodingSteps.push(step)] *)
Definition pushDecodingStep (s : DecStep.t) : M unit :=
  fun w =>
    (tt, {| heap := updateAt (TokenVisualizer.decodingSteps (this w)) (pushDec s) (heap w);
            this := this w |}).

(** [xs.forEach((x, index) => ...)], the callback threading the local
    variables it assigns in [acc]. *)
Fixpoint forEachM {A S : Type} (body : A -> Z -> S -> M S)
         (xs : list A) (index : Z) (acc : S) : M S :=
  match xs with
  | [] => ret acc
  | x :: xs' =>
      bind (body x index acc) (fun acc' => forEachM body xs' (index + 1) acc')
  end.

(** Reading an array back from the heap, for observation. *)
Definition encArrayAt (h : Heap) (l : loc) : list EncStep.t :=
  match nth_error h l with
  | Some (EncArray xs) => xs
  | _ => []
  end.

Definition decArrayAt (h : Heap) (l : loc) : list DecStep.t :=
  match nth_error h l with
  | Some (DecArray xs) => xs
  | _ => []
  end.

(* ===================================================================== *)
(** * IEEE-754 binary64 and [Number.prototype.toFixed(1)] *)
(* ===================================================================== *)

Definition double := spec_float.

(** The number value of an integer. *)
Definition ofInt (z : Z) : double := binary_normalize 53 1024 z 0 false.

Definition fdiv (x y : double) : double := SFdiv 53 1024 x y.
Definition fmul (x y : double) : double := SFmul 53 1024 x y.

(** Whether the finite value [m * 2^e] is at least [10^21]. *)
Definition atLeast1e21 (m : positive) (e : Z) : bool :=
  if 0 <=? e then 10 ^ 21 <=? Z.pos m * 2 ^ e
  else 10 ^ 21 * 2 ^ (- e) <=? Z.pos m.

(** The integer [n] for which [n / 10 - m * 2^e] is as close to zero as
    possible, the larger one when there are two. *)
Definition nearestTenths (m : positive) (e : Z) : Z :=
  if 0 <=? e then 10 * Z.pos m * 2 ^ e
  else (20 * Z.pos m + 2 ^ (- e)) / 2 ^ (- e + 1).

(** The digits of [n], padded to two digits, with a point before the last. *)
Definition fixedDigits1 (n : Z) : jsstring :=
  let m := decimalNat n in
  let m' := if (List.length m <=? 1)%nat then 48 :: m else m in
  let k := List.length m' in
  firstn (k - 1) m' ++ [46] ++ skipn (k - 1) m'.

(* ===================================================================== *)
(** * The class [TokenVisualizer] *)
(* ===================================================================== *)

Section Host.

(** [String.prototype.toLowerCase] and [Number.prototype.toString] (on an
    integer) of the host. *)
Variable toLowerCase : jsstring -> jsstring.
Variable numberToString : Z -> jsstring.

Local Open Scope js_scope.

(** [x.toFixed(1)] *)
Definition toFixed1 (x : double) : jsstring :=
  match x with
  | S754_nan => str "NaN"
  | S754_infinity s => if s then str "-Infinity" else str "Infinity"
  | S754_zero _ => fixedDigits1 0
  | S754_finite s m e =>
      let sign := if s then [45] else [] in
      if atLeast1e21 m e
      then sign ++ numberToString (Z.pos m * 2 ^ e)
      else sign ++ fixedDigits1 (nearestTenths m e)
  end.

(** ** initializeVocabulary *)

(** The two maps under construction and the counter [tokenId]. *)
Record VocabState := { vsVocabulary : StringMap; vsReverse : NumberMap;
                       vsTokenId : Z }.

(** Body shared by the three [forEach] callbacks: [set] in both maps, then
    [tokenId++]. *)
Definition addEntry (st : VocabState) (unit : jsstring) : VocabState :=
  {| vsVocabulary := JsMap.set jsstring_eqb unit (vsTokenId st) (vsVocabulary st);
     vsReverse := JsMap.set Z.eqb (vsTokenId st) unit (vsReverse st);
     vsTokenId := vsTokenId st + 1 |}.

Definition addWord (st : VocabState) (word : jsstring) : VocabState :=
  addEntry st (toLowerCase word).

Definition initializeVocabulary : VocabState :=
  let st0 := {| vsVocabulary := JsMap.empty; vsReverse := JsMap.empty;
                vsTokenId := 0 |} in
  let st1 := fold_left addEntry specialTokens st0 in
  let st2 := fold_left addWord commonWords st1 in
  fold_left addEntry punctuation st2.

(** ** constructor *)

(** [new TokenVisualizer()]: the vocabulary, the offset 2000, and two fresh
    empty step arrays. *)
Definition newTokenVisualizer : World :=
  let st := initializeVocabulary in
  {| heap := [EncArray []; DecArray []];
     this := {| TokenVisualizer.vocabulary := vsVocabulary st;
                TokenVisualizer.reverseVocabulary := vsReverse st;
                TokenVisualizer.asciiOffset := 2000;
                TokenVisualizer.encodingSteps := 0%nat;
                TokenVisualizer.decodingSteps := 1%nat |} |}.

(** ** tokenizeWords *)

Definition nonEmpty (s : jsstring) : bool :=
  match s with [] => false | _ :: _ => true end.

(** [if (currentToken) { tokens.push(currentToken); currentToken = ''; }] *)
Definition flush (tokens : list jsstring) (currentToken : jsstring)
  : list jsstring :=
  if nonEmpty currentToken then tokens ++ [currentToken] else tokens.

(** The [for] loop from position [i] on, [text] being the units still to
    read, followed by the final flush. *)
Fixpoint tokenizeFrom (text : jsstring) (tokens : list jsstring)
         (currentToken : jsstring) : list jsstring :=
  match text with
  | [] => flush tokens currentToken
  | char :: rest =>
      if isWhitespace char then
        let tokens1 := flush tokens currentToken in
        let tokens2 := if negb (char =? 32) then tokens1 ++ [[char]]
                       else tokens1 in
        tokenizeFrom rest tokens2 []
      else if isPunctuation char then
        let tokens1 := flush tokens currentToken in
        tokenizeFrom rest (tokens1 ++ [[char]]) []
      else
        tokenizeFrom rest tokens (currentToken ++ [char])
  end.

Definition tokenizeWords (text : jsstring) : list jsstring :=
  tokenizeFrom text [] [].

(** ** encodeToAscii *)

Definition encodeToAscii (self : TokenVisualizer.t) (word : jsstring)
  : list Z :=
  map (fun char => charCodeAt0 char + TokenVisualizer.asciiOffset self)
      (arrayFrom word).

(** ** encodeText *)

Definition quoted (s : jsstring) : jsstring := [34] ++ s ++ [34].

(** The callback of [words.forEach]; [tokens] is the local array it pushes
    to.  [has] followed by [get] on the same key is one lookup here. *)
Definition encodeWord (word : jsstring) (index : Z) (tokens : list Z)
  : M (list Z) :=
  self <- getThis ;;
  match JsMap.get jsstring_eqb (toLowerCase word)
                  (TokenVisualizer.vocabulary self) with
  | Some tokenId =>
      pushEncodingStep
        {| EncStep.step := index + 1;
           EncStep.input := word;
           EncStep.process :=
             str "Found " ++ quoted word ++ str " in vocabulary";
           EncStep.output := OutToken tokenId |} ;;
      ret (tokens ++ [tokenId])
  | None =>
      let asciiTokens := encodeToAscii self word in
      pushEncodingStep
        {| EncStep.step := index + 1;
           EncStep.input := word;
           EncStep.process :=
             quoted word ++ str " not in vocabulary, using ASCII encoding";
           EncStep.output := OutAscii asciiTokens |} ;;
      ret (tokens ++ asciiTokens)
  end.

Definition encodeText (text : jsstring) : M EncodeResult.t :=
  if negb (nonEmpty text) then
    steps <- newArray (EncArray []) ;;
    ret {| EncodeResult.tokens := [];
           EncodeResult.steps := steps;
           EncodeResult.originalText := None;
           EncodeResult.tokenCount := None;
           EncodeResult.characterCount := None |}
  else
    arr <- newArray (EncArray []) ;;
    setEncodingSteps arr ;;
    tokens <- forEachM encodeWord (tokenizeWords text) 0 [] ;;
    self <- getThis ;;
    ret {| EncodeResult.tokens := tokens;
           EncodeResult.steps := TokenVisualizer.encodingSteps self;
           EncodeResult.originalText := Some text;
           EncodeResult.tokenCount := Some (Z.of_nat (List.length tokens));
           EncodeResult.characterCount := Some (Z.of_nat (List.length text)) |}.

(** ** decodeTokens *)

(** The callback of [tokens.forEach]; [decodedText] is the local string it
    appends to. *)
Definition decodeToken (token : Z) (index : Z) (decodedText : jsstring)
  : M jsstring :=
  self <- getThis ;;
  match JsMap.get Z.eqb token (TokenVisualizer.reverseVocabulary self) with
  | Some text =>
      pushDecodingStep
        {| DecStep.step := index + 1;
           DecStep.input := token;
           DecStep.process :=
             str "Token " ++ numberToString token ++ str " found in vocabulary";
           DecStep.output := text |} ;;
      ret (decodedText ++ text)
  | None =>
      if TokenVisualizer.asciiOffset self <=? token then
        let asciiChar :=
          fromCharCode (token - TokenVisualizer.asciiOffset self) in
        pushDecodingStep
          {| DecStep.step := index + 1;
             DecStep.input := token;
             DecStep.process :=
               str "Token " ++ numberToString token ++ str " decoded from ASCII";
             DecStep.output := asciiChar |} ;;
        ret (decodedText ++ asciiChar)
      else
        let unknownText := str "<UNK>" in
        pushDecodingStep
          {| DecStep.step := index + 1;
             DecStep.input := token;
             DecStep.process :=
               str "Token " ++ numberToString token
                   ++ str " not found, using <UNK>";
             DecStep.output := unknownText |} ;;
        ret (decodedText ++ unknownText)
  end.

Definition decodeTokens (tokens : list Z) : M DecodeResult.t :=
  match tokens with
  | [] =>
      steps <- newArray (DecArray []) ;;
      ret {| DecodeResult.text := [];
             DecodeResult.steps := steps;
             DecodeResult.tokenCount := None |}
  | _ :: _ =>
      arr <- newArray (DecArray []) ;;
      setDecodingSteps arr ;;
      decodedText <- forEachM decodeToken tokens 0 [] ;;
      self <- getThis ;;
      ret {| DecodeResult.text := decodedText;
             DecodeResult.steps := TokenVisualizer.decodingSteps self;
             DecodeResult.tokenCount := Some (Z.of_nat (List.length tokens)) |}
  end.

(** ** getVocabulary *)

(** [vocab.sort((a, b) => a.token - b.token)]: a stable sort by [token]. *)
Fixpoint insertByToken (x : VocabEntry.t) (l : list VocabEntry.t)
  : list VocabEntry.t :=
  match l with
  | [] => [x]
  | y :: l' =>
      if VocabEntry.token x - VocabEntry.token y <=? 0
      then x :: y :: l'
      else y :: insertByToken x l'
  end.

Definition sortByToken (l : list VocabEntry.t) : list VocabEntry.t :=
  fold_right insertByToken [] l.

(** The values [i] takes in [for (let i = 32; i <= 126; i++)]. *)
Definition printableAscii : list Z :=
  map (fun k => 32 + Z.of_nat k) (seq 0 95).

Definition vocabularyEntries (self : TokenVisualizer.t)
           (searchTerm : jsstring) : list VocabEntry.t :=
  flat_map
    (fun e : jsstring * Z =>
       let (word, tokenId) := e in
       if negb (nonEmpty searchTerm)
          || includes (toLowerCase word) (toLowerCase searchTerm)
       then [ {| VocabEntry.character := word;
                 VocabEntry.token := tokenId;
                 VocabEntry.type := vocabularyType |} ]
       else [])
    (JsMap.entries (TokenVisualizer.vocabulary self)).

Definition asciiEntries (self : TokenVisualizer.t)
           (searchTerm : jsstring) : list VocabEntry.t :=
  flat_map
    (fun i =>
       let char := fromCharCode i in
       let tokenId := i + TokenVisualizer.asciiOffset self in
       if negb (nonEmpty searchTerm)
          || includes char searchTerm
          || includes (numberToString tokenId) searchTerm
       then [ {| VocabEntry.character := char;
                 VocabEntry.token := tokenId;
                 VocabEntry.type := asciiType |} ]
       else [])
    printableAscii.

Definition getVocabulary (self : TokenVisualizer.t)
           (searchTerm : jsstring) (includeAscii : bool)
  : list VocabEntry.t :=
  let vocab := vocabularyEntries self searchTerm in
  let vocab' := if includeAscii then vocab ++ asciiEntries self searchTerm
                else vocab in
  sortByToken vocab'.

(** ** getEncodingStats *)

(** [((length - tokens) / length * 100).toFixed(1)], or the number 0. *)
Definition compressionRatioOf (length tokenLength : Z) : Ratio :=
  if 0 <? length then
    RatioString
      (toFixed1 (fmul (fdiv (ofInt (length - tokenLength)) (ofInt length))
                      (ofInt 100)))
  else RatioNumber 0.

Definition getEncodingStats (text : jsstring) : M Stats.t :=
  encoded <- encodeText text ;;
  let tokenLength := Z.of_nat (List.length (EncodeResult.tokens encoded)) in
  let length := Z.of_nat (List.length text) in
  ret {| Stats.characterCount := length;
         Stats.tokenCount := tokenLength;
         Stats.compressionRatio := compressionRatioOf length tokenLength;
         Stats.tokens := EncodeResult.tokens encoded |}.

(** ** Sequences of calls on the global instance [tokenizer] *)

Inductive Call :=
| CallEncodeText (text : jsstring)
| CallDecodeTokens (tokens : list Z)
| CallGetEncodingStats (text : jsstring)
| CallGetVocabulary (searchTerm : jsstring) (includeAscii : bool).

(** The world a call leaves behind ([getVocabulary] only reads). *)
Definition exec (w : World) (c : Call) : World :=
  match c with
  | CallEncodeText text => snd (encodeText text w)
  | CallDecodeTokens tokens => snd (decodeTokens tokens w)
  | CallGetEncodingStats text => snd (getEncodingStats text w)
  | CallGetVocabulary _ _ => w
  end.

(** [const tokenizer = new TokenVisualizer()] followed by [calls]. *)
Definition tokenizerAfter (calls : list Call) : World :=
  fold_left exec calls newTokenVisualizer.

(** What a caller sees of a result: its fields, with the step array read
    through the reference. *)
Definition observeEncode (r : EncodeResult.t * World)
  : list Z * list EncStep.t * option jsstring * option Z * option Z :=
  let (res, w) := r in
  (EncodeResult.tokens res, encArrayAt (heap w) (EncodeResult.steps res),
   EncodeResult.originalText res, EncodeResult.tokenCount res,
   EncodeResult.characterCount res).

Definition observeDecode (r : DecodeResult.t * World)
  : jsstring * list DecStep.t * option Z :=
  let (res, w) := r in
  (DecodeResult.text res, decArrayAt (heap w) (DecodeResult.steps res),
   DecodeResult.tokenCount res).

(** ** Pure views of the two loops

    The values the [forEach] callbacks compute, as functions of the
    instance fields they read.  Lemmas [encodeText_run] and
    [decodeTokens_run] relate the methods to them. *)

Definition encodeWordTokens (self : TokenVisualizer.t) (word : jsstring)
  : list Z :=
  match JsMap.get jsstring_eqb (toLowerCase word)
                  (TokenVisualizer.vocabulary self) with
  | Some tokenId => [tokenId]
  | None => encodeToAscii self word
  end.

Definition encodeWordStep (self : TokenVisualizer.t) (word : jsstring)
           (index : Z) : EncStep.t :=
  match JsMap.get jsstring_eqb (toLowerCase word)
                  (TokenVisualizer.vocabulary self) with
  | Some tokenId =>
      {| EncStep.step := index + 1;
         EncStep.input := word;
         EncStep.process :=
           str "Found " ++ quoted word ++ str " in vocabulary";
         EncStep.output := OutToken tokenId |}
  | None =>
      {| EncStep.step := index + 1;
         EncStep.input := word;
         EncStep.process :=
           quoted word ++ str " not in vocabulary, using ASCII encoding";
         EncStep.output := OutAscii (encodeToAscii self word) |}
  end.

Fixpoint encodeStepsFrom (self : TokenVisualizer.t) (words : list jsstring)
         (index : Z) : list EncStep.t :=
  match words with
  | [] => []
  | word :: words' =>
      encodeWordStep self word index :: encodeStepsFrom self words' (index + 1)
  end.

Definition encodedTokens (self : TokenVisualizer.t) (text : jsstring)
  : list Z :=
  flat_map (encodeWordTokens self) (tokenizeWords text).

Definition decodeTokenStep (self : TokenVisualizer.t) (token : Z)
           (index : Z) : DecStep.t :=
  match JsMap.get Z.eqb token (TokenVisualizer.reverseVocabulary self) with
  | Some text =>
      {| DecStep.step := index + 1;
         DecStep.input := token;
         DecStep.process :=
           str "Token " ++ numberToString token ++ str " found in vocabulary";
         DecStep.output := text |}
  | None =>
      if TokenVisualizer.asciiOffset self <=? token then
        {| DecStep.step := index + 1;
           DecStep.input := token;
           DecStep.process :=
             str "Token " ++ numberToString token ++ str " decoded from ASCII";
           DecStep.output :=
             fromCharCode (token - TokenVisualizer.asciiOffset self) |}
      else
        {| DecStep.step := index + 1;
           DecStep.input := token;
           DecStep.process :=
             str "Token " ++ numberToString token
                 ++ str " not found, using <UNK>";
           DecStep.output := str "<UNK>" |}
  end.

Fixpoint decodeStepsFrom (self : TokenVisualizer.t) (tokens : list Z)
         (index : Z) : list DecStep.t :=
  match tokens with
  | [] => []
  | token :: tokens' =>
      decodeTokenStep self token index
        :: decodeStepsFrom self tokens' (index + 1)
  end.

Definition decodedText (self : TokenVisualizer.t) (tokens : list Z)
  : jsstring :=
  flat_map (fun token => DecStep.output (decodeTokenStep self token 0)) tokens.

(** The units stored by [initializeVocabulary], in id order. *)
Definition seedUnits : list jsstring :=
  specialTokens ++ map toLowerCase commonWords ++ punctuation.

(** ** Unit splitting as the specification words it

    A regular character is neither whitespace nor punctuation.  [Units text
    us] holds when [us] is the sequence of units of [text]: each maximal
    run of regular characters is one unit, each punctuation character and
    each whitespace character other than the space is a unit of its own,
    and a space yields no unit. *)

Definition isRegular (c : Z) : bool :=
  negb (isWhitespace c) && negb (isPunctuation c).

(** [text] does not continue a run: it is empty or starts with a separator. *)
Definition runEnds (text : jsstring) : Prop :=
  match text with
  | [] => True
  | c :: _ => isRegular c = false
  end.

Inductive Units : jsstring -> list jsstring -> Prop :=
| UnitsEnd : Units [] []
| UnitsRun run rest us :
    run <> [] -> forallb isRegular run = true -> runEnds rest ->
    Units rest us -> Units (run ++ rest) (run :: us)
| UnitsSpace rest us :
    Units rest us -> Units (32 :: rest) us
| UnitsSeparator c rest us :
    isRegular c = false -> c <> 32 ->
    Units rest us -> Units (c :: rest) ([c] :: us).

(** ** Auxiliary notions for the proofs *)

(** Several pushes on one array. *)
Definition pushAllEnc (steps : list EncStep.t) (o : Obj) : Obj :=
  match o with
  | EncArray xs => EncArray (xs ++ steps)
  | DecArray xs => DecArray xs
  end.

Definition pushAllDec (steps : list DecStep.t) (o : Obj) : Obj :=
  match o with
  | DecArray xs => DecArray (xs ++ steps)
  | EncArray xs => EncArray xs
  end.

(** Two instance states with the same vocabulary tables. *)
Definition sameTables (s1 s2 : TokenVisualizer.t) : Prop :=
  TokenVisualizer.vocabulary s1 = TokenVisualizer.vocabulary s2 /\
  TokenVisualizer.reverseVocabulary s1 = TokenVisualizer.reverseVocabulary s2 /\
  TokenVisualizer.asciiOffset s1 = TokenVisualizer.asciiOffset s2.

(** The state [initializeVocabulary] starts from. *)
Definition emptyVocabState : VocabState :=
  {| vsVocabulary := JsMap.empty; vsReverse := JsMap.empty; vsTokenId := 0 |}.

(** [id] is the last position of [u] in [units]. *)
Definition lastAt (units : list jsstring) (u : jsstring) (id : Z) : Prop :=
  0 <= id /\ nth_error units (Z.to_nat id) = Some u /\
  forall k, (Z.to_nat id < k)%nat -> nth_error units k <> Some u.

(** The unit a separator character contributes: none for the space. *)
Definition sepUnits (c : Z) : list jsstring :=
  if c =? 32 then [] else [[c]].

(** Ascending order of ids in a listing. *)
Definition leToken (a b : VocabEntry.t) : Prop :=
  VocabEntry.token a <= VocabEntry.token b.

(** The listing entry of a table entry, and of a printable character. *)
Definition tableEntry (e : jsstring * Z) : VocabEntry.t :=
  {| VocabEntry.character := fst e; VocabEntry.token := snd e;
     VocabEntry.type := vocabularyType |}.

Definition charEntry (i : Z) : VocabEntry.t :=
  {| VocabEntry.character := [i]; VocabEntry.token := i + 2000;
     VocabEntry.type := asciiType |}.


(** ** Notions used by the further properties *)

Definition notSpace (c : Z) : bool := negb (c =? 32).

(** The text a unit decodes to after encoding: its lower-cased form when
    that is a vocabulary entry, otherwise the first code unit of each of its
    code points. *)
Definition decodedUnit (self : TokenVisualizer.t) (word : jsstring)
  : jsstring :=
  match JsMap.get jsstring_eqb (toLowerCase word)
                  (TokenVisualizer.vocabulary self) with
  | Some _ => toLowerCase word
  | None => map charCodeAt0 (arrayFrom word)
  end.

(** What is known of the host's [toLowerCase]: its result holds no
    upper-case ASCII letter. *)
Definition lowerHasNoUpper (f : jsstring -> jsstring) : Prop :=
  forall s c, In c (f s) -> ~ (65 <= c <= 90).

(** [tokenText] of [updateVisualization] in ui.js:
    [tokenizer.reverseVocabulary.has(token) ?
       tokenizer.reverseVocabulary.get(token) :
       String.fromCharCode(token - tokenizer.asciiOffset)] *)
Definition tokenText (self : TokenVisualizer.t) (token : Z) : jsstring :=
  match JsMap.get Z.eqb token (TokenVisualizer.reverseVocabulary self) with
  | Some text => text
  | None => fromCharCode (token - TokenVisualizer.asciiOffset self)
  end.

(** The ids of an encoding step's output, as a list. *)
Definition outputTokens (o : EncOutput) : list Z :=
  match o with
  | OutToken tokenId => [tokenId]
  | OutAscii asciiTokens => asciiTokens
  end.

(** The index values [index + 1, index + 2, ...] of [n] successive steps. *)
Definition stepNumbers (index : Z) (n : nat) : list Z :=
  map (fun k => index + 1 + Z.of_nat k) (seq 0 n).

(** A decoding step with its number moved by [d]. *)
Definition renumber (d : Z) (s : DecStep.t) : DecStep.t :=
  {| DecStep.step := DecStep.step s + d;
     DecStep.input := DecStep.input s;
     DecStep.process := DecStep.process s;
     DecStep.output := DecStep.output s |}.

Definition hasUpper (s : jsstring) : bool :=
  existsb (fun c => (65 <=? c) && (c <=? 90)) s.

(** The text of the most recent call that assigned [this.encodingSteps]
    (an [encodeText] or [getEncodingStats] on a non-empty text), and the
    tokens of the most recent call that assigned [this.decodingSteps]. *)
Definition noteEncoded (last : option jsstring) (c : Call) : option jsstring :=
  match c with
  | CallEncodeText text | CallGetEncodingStats text =>
      if nonEmpty text then Some text else last
  | _ => last
  end.

Definition noteDecoded (last : option (list Z)) (c : Call) : option (list Z) :=
  match c with
  | CallDecodeTokens (t :: ts) => Some (t :: ts)
  | _ => last
  end.

Definition lastEncodedText (calls : list Call) : option jsstring :=
  fold_left noteEncoded calls None.

Definition lastDecodedTokens (calls : list Call) : option (list Z) :=
  fold_left noteDecoded calls None.

(** Strictly ascending order of ids in a listing. *)
Definition ltToken (a b : VocabEntry.t) : Prop :=
  VocabEntry.token a < VocabEntry.token b.

(** The two filters of [getVocabulary]. *)
Definition matchesWord (searchTerm : jsstring) (e : jsstring * Z) : bool :=
  negb (nonEmpty searchTerm)
  || includes (toLowerCase (fst e)) (toLowerCase searchTerm).

Definition matchesChar (self : TokenVisualizer.t) (searchTerm : jsstring)
           (i : Z) : bool :=
  negb (nonEmpty searchTerm)
  || includes (fromCharCode i) searchTerm
  || includes (numberToString (i + TokenVisualizer.asciiOffset self)) searchTerm.

(** ** The token input of the decoding tab (ui.js)

    [handleTokenDecoding] reads the input field, trims it, splits it at
    commas and parses each entry with [parseInt]; [displayEncodingResult]
    shows the tokens of an encoding joined with ", " between brackets.
    [trim], [split] and [parseInt] follow ECMAScript; the value [parseInt]
    returns is exact for integers of magnitude below 2^53. *)

Fixpoint trimStart (s : jsstring) : jsstring :=
  match s with
  | [] => []
  | c :: s' => if isWhitespace c then trimStart s' else s
  end.

Definition trimEnd (s : jsstring) : jsstring := rev (trimStart (rev s)).

(** [s.trim()] *)
Definition trim (s : jsstring) : jsstring := trimEnd (trimStart s).

(** [s.split(',')], [piece] being the piece under way. *)
Fixpoint splitFrom (s : jsstring) (piece : jsstring) : list jsstring :=
  match s with
  | [] => [piece]
  | c :: s' =>
      if c =? 44 then piece :: splitFrom s' [] else splitFrom s' (piece ++ [c])
  end.

Definition splitComma (s : jsstring) : list jsstring := splitFrom s [].

(** The value of a character as a digit in the given radix, if it is one. *)
Definition digitValue (radix : Z) (c : Z) : option Z :=
  let v := if (48 <=? c) && (c <=? 57) then Some (c - 48)
           else if (97 <=? c) && (c <=? 122) then Some (c - 97 + 10)
           else if (65 <=? c) && (c <=? 90) then Some (c - 65 + 10)
           else None in
  match v with
  | Some d => if d <? radix then Some d else None
  | None => None
  end.

(** The value of the longest prefix of [s] made of digits, continuing from
    [acc]; [None] while no digit has been read. *)
Fixpoint digitsPrefix (radix : Z) (s : jsstring) (acc : option Z) : option Z :=
  match s with
  | [] => acc
  | c :: s' =>
      match digitValue radix c with
      | Some d =>
          digitsPrefix radix s'
            (Some (match acc with Some a => a * radix + d | None => d end))
      | None => acc
      end
  end.

(** [parseInt(string)] with no radix argument; [None] is NaN.  Leading
    whitespace is skipped, a sign is read, a prefix 0x or 0X selects radix
    16, and the longest prefix of digits is the value. *)
Definition parseInt (string : jsstring) : option Z :=
  let s := trimStart string in
  let sign := match s with
              | c :: _ => if c =? 45 then -1 else 1
              | [] => 1
              end in
  let s1 := match s with
            | c :: r => if (c =? 45) || (c =? 43) then r else s
            | [] => s
            end in
  let hex := match s1 with
             | z :: x :: _ => (z =? 48) && ((x =? 120) || (x =? 88))
             | _ => false
             end in
  let radix := if hex then 16 else 10 in
  let s2 := if hex then skipn 2 s1 else s1 in
  match digitsPrefix radix s2 None with
  | Some m => Some (sign * m)
  | None => None
  end.

(** What [handleTokenDecoding] makes of the input field: a warning when
    nothing was entered, the error "Invalid token: <entry>" thrown at the
    first entry [parseInt] cannot read, or the tokens handed to
    [decodeTokens]. *)
Inductive TokenInput :=
| NothingEntered
| InvalidToken (entry : jsstring)
| ParsedTokens (tokens : list Z).

(** [entries.map(t => { const num = parseInt(t.trim()); if (isNaN(num))
    throw ...; return num; })] *)
Fixpoint parseEntries (entries : list jsstring) : jsstring + list Z :=
  match entries with
  | [] => inr []
  | t :: rest =>
      match parseInt (trim t) with
      | None => inl (trim t)
      | Some num =>
          match parseEntries rest with
          | inl e => inl e
          | inr nums => inr (num :: nums)
          end
      end
  end.

Definition readTokenInput (value : jsstring) : TokenInput :=
  let tokenInput := trim value in
  if negb (nonEmpty tokenInput) then NothingEntered
  else
    match parseEntries (splitComma tokenInput) with
    | inl e => InvalidToken e
    | inr tokens => ParsedTokens tokens
    end.

(** [pieces.join(', ')] *)
Fixpoint joinPieces (pieces : list jsstring) : jsstring :=
  match pieces with
  | [] => []
  | p :: rest =>
      match rest with
      | [] => p
      | _ :: _ => p ++ [44; 32] ++ joinPieces rest
      end
  end.

(** [tokens.join(', ')] and the text [displayEncodingResult] shows,
    [`[${result.tokens.join(', ')}]`]. *)
Definition joinTokens (tokens : list Z) : jsstring :=
  joinPieces (map numberToString tokens).

Definition shownTokens (tokens : list Z) : jsstring :=
  [91] ++ joinTokens tokens ++ [93].

(** What is known of the host's [Number.prototype.toString]: a non-negative
    integer below 2^53 is written in decimal. *)
Definition writesDecimal (f : Z -> jsstring) : Prop :=
  forall n, 0 <= n < 2 ^ 53 -> f n = decimalNat n.

Definition isDigit (c : Z) : bool := (48 <=? c) && (c <=? 57).

(** The number a string of decimal digits denotes, continuing from [a]. *)
Definition valueFrom (a : Z) (ds : jsstring) : Z :=
  fold_left (fun acc d => acc * 10 + (d - 48)) ds a.

(** A double that is not below zero: its sign bit is clear, or it is NaN. *)
Definition notNegative (x : double) : bool :=
  match x with
  | S754_zero s | S754_infinity s | S754_finite s _ _ => negb s
  | S754_nan => true
  end.

(* ===================================================================== *)
(** * Facts about strings and maps *)
(* ===================================================================== *)

Lemma jsstring_eqb_eq (s t : jsstring) : jsstring_eqb s t = true <-> s = t.
Proof.
  revert t; induction s as [|c s IH]; intros [|d t]; simpl;
    try (split; [discriminate | discriminate]); try tauto.
  rewrite andb_true_iff, Z.eqb_eq, IH.
  split; [intros [-> ->]; reflexivity | intros E; injection E; auto].
Qed.

Lemma jsstring_eqb_refl (s : jsstring) : jsstring_eqb s s = true.
Proof. apply jsstring_eqb_eq; reflexivity. Qed.

Lemma jsstring_eqb_neq (s t : jsstring) : s <> t -> jsstring_eqb s t = false.
Proof.
  intros N; destruct (jsstring_eqb s t) eqn:E; [|reflexivity].
  apply jsstring_eqb_eq in E; contradiction.
Qed.

Section JsMapFacts.
Context {K V : Type}.
Variable eqb : K -> K -> bool.
Hypothesis eqb_ok : forall a b, eqb a b = true <-> a = b.

Lemma eqb_same (a : K) : eqb a a = true.
Proof. apply eqb_ok; reflexivity. Qed.

Lemma eqb_diff (a b : K) : a <> b -> eqb a b = false.
Proof.
  intros N; destruct (eqb a b) eqn:E; [|reflexivity].
  apply eqb_ok in E; contradiction.
Qed.

Lemma get_set_same (k : K) (v : V) (m : JsMap.t K V) :
  JsMap.get eqb k (JsMap.set eqb k v m) = Some v.
Proof.
  induction m as [|[k' v'] m IH]; simpl.
  - rewrite eqb_same; reflexivity.
  - destruct (eqb k k') eqn:E; simpl; rewrite E; auto.
Qed.

Lemma get_set_other (k k' : K) (v : V) (m : JsMap.t K V) :
  k <> k' -> JsMap.get eqb k' (JsMap.set eqb k v m) = JsMap.get eqb k' m.
Proof.
  intros N; induction m as [|[k0 v0] m IH]; simpl.
  - rewrite eqb_diff; auto.
  - destruct (eqb k k0) eqn:E; simpl.
    + apply eqb_ok in E; subst k0. rewrite eqb_diff; auto.
    + rewrite IH; reflexivity.
Qed.

Lemma has_true_iff (k : K) (m : JsMap.t K V) :
  JsMap.has eqb k m = true <-> exists v, JsMap.get eqb k m = Some v.
Proof.
  unfold JsMap.has; destruct (JsMap.get eqb k m) as [v|].
  - split; eauto.
  - split; [discriminate | intros [v E]; discriminate].
Qed.

Lemma has_false_iff (k : K) (m : JsMap.t K V) :
  JsMap.has eqb k m = false <-> JsMap.get eqb k m = None.
Proof.
  unfold JsMap.has; destruct (JsMap.get eqb k m); split;
    congruence.
Qed.

(** Keys of a map built by [set] alone are pairwise distinct. *)
Definition keysDistinct (m : JsMap.t K V) : Prop := NoDup (map fst m).

Lemma set_keys (k : K) (v : V) (m : JsMap.t K V) :
  map fst (JsMap.set eqb k v m) =
  if JsMap.has eqb k m then map fst m else map fst m ++ [k].
Proof.
  unfold JsMap.has; induction m as [|[k' v'] m IH]; simpl; auto.
  destruct (eqb k k') eqn:E; simpl; auto.
  rewrite IH; destruct (JsMap.get eqb k m); reflexivity.
Qed.

Lemma get_None_not_key (k : K) (m : JsMap.t K V) :
  JsMap.get eqb k m = None -> ~ In k (map fst m).
Proof.
  induction m as [|[k' v'] m IH]; simpl; auto.
  destruct (eqb k k') eqn:E; [discriminate|].
  intros G [H|H]; [subst k'; rewrite eqb_same in E; discriminate|].
  exact (IH G H).
Qed.

Lemma set_keysDistinct (k : K) (v : V) (m : JsMap.t K V) :
  keysDistinct m -> keysDistinct (JsMap.set eqb k v m).
Proof.
  unfold keysDistinct; intros D; rewrite set_keys.
  destruct (JsMap.has eqb k m) eqn:H; auto.
  apply has_false_iff in H. apply get_None_not_key in H.
  apply NoDup_rev in D. rewrite <- (rev_involutive (map fst m ++ [k])).
  apply NoDup_rev. rewrite rev_app_distr; simpl.
  constructor; auto. rewrite <- in_rev; exact H.
Qed.

Lemma get_In (k : K) (v : V) (m : JsMap.t K V) :
  JsMap.get eqb k m = Some v -> In (k, v) (JsMap.entries m).
Proof.
  unfold JsMap.entries; induction m as [|[k' v'] m IH]; simpl;
    [discriminate|].
  destruct (eqb k k') eqn:E.
  - apply eqb_ok in E; subst k'. intros G; injection G as ->; auto.
  - auto.
Qed.
End JsMapFacts.

Lemma arrayFrom_cons2 (c d : Z) (rest : jsstring) :
  arrayFrom (c :: d :: rest) =
  if isHighSurrogate c && isLowSurrogate d
  then [c; d] :: arrayFrom rest
  else [c] :: arrayFrom (d :: rest).
Proof. reflexivity. Qed.

Lemma arrayFrom_nonempty (s : jsstring) :
  Forall (fun x => x <> []) (arrayFrom s).
Proof.
  remember (List.length s) as n eqn:L.
  revert s L; induction n as [n IH] using lt_wf_ind; intros s L.
  destruct s as [|c [|d rest]].
  - constructor.
  - constructor; [discriminate | constructor].
  - rewrite arrayFrom_cons2.
    destruct (isHighSurrogate c && isLowSurrogate d).
    + constructor; [discriminate|].
      apply (IH (List.length rest)); [subst n; simpl; lia | reflexivity].
    + constructor; [discriminate|].
      apply (IH (List.length (d :: rest)));
        [subst n; simpl; lia | reflexivity].
Qed.

(** [Array.from] yields at most one element per code unit. *)
Lemma arrayFrom_length (s : jsstring) :
  (List.length (arrayFrom s) <= List.length s)%nat.
Proof.
  remember (List.length s) as n eqn:L.
  revert s L; induction n as [n IH] using lt_wf_ind; intros s L.
  destruct s as [|c [|d rest]]; [subst n; simpl; lia | subst n; simpl; lia |].
  rewrite arrayFrom_cons2.
  destruct (isHighSurrogate c && isLowSurrogate d).
  - assert (List.length (arrayFrom rest) <= List.length rest)%nat
      by (apply (IH (List.length rest)); [subst n; simpl; lia | reflexivity]).
    subst n; cbn [List.length]; lia.
  - assert (List.length (arrayFrom (d :: rest)) <= List.length (d :: rest))%nat
      by (apply (IH (List.length (d :: rest)));
          [subst n; simpl; lia | reflexivity]).
    subst n; cbn [List.length] in *; lia.
Qed.

Lemma arrayFrom_single (c : Z) : arrayFrom [c] = [[c]].
Proof. reflexivity. Qed.

(* ===================================================================== *)
(** * The heap and the two loops *)
(* ===================================================================== *)

Lemma updateAt_length (l : loc) (f : Obj -> Obj) (h : Heap) :
  List.length (updateAt l f h) = List.length h.
Proof.
  revert l; induction h as [|o h IH]; intros [|l]; simpl; auto.
Qed.

Lemma updateAt_same (l : loc) (f : Obj -> Obj) (h : Heap) :
  (forall o, f o = o) -> updateAt l f h = h.
Proof.
  intros F; revert l; induction h as [|o h IH]; intros [|l]; simpl;
    rewrite ?F, ?IH; reflexivity.
Qed.

Lemma updateAt_twice (l : loc) (f g : Obj -> Obj) (h : Heap) :
  updateAt l f (updateAt l g h) = updateAt l (fun o => f (g o)) h.
Proof.
  revert l; induction h as [|o h IH]; intros [|l]; simpl;
    rewrite ?IH; reflexivity.
Qed.

Lemma updateAt_ext (l : loc) (f g : Obj -> Obj) (h : Heap) :
  (forall o, f o = g o) -> updateAt l f h = updateAt l g h.
Proof.
  intros F; revert l; induction h as [|o h IH]; intros [|l]; simpl;
    rewrite ?F, ?(IH l); reflexivity.
Qed.

Lemma updateAt_fresh (f : Obj -> Obj) (h : Heap) (o : Obj) :
  updateAt (List.length h) f (h ++ [o]) = h ++ [f o].
Proof.
  induction h as [|x h IH]; simpl; rewrite ?IH; reflexivity.
Qed.

Lemma encArrayAt_fresh (h : Heap) (xs : list EncStep.t) :
  encArrayAt (h ++ [EncArray xs]) (List.length h) = xs.
Proof.
  unfold encArrayAt. rewrite nth_error_app2 by lia.
  rewrite Nat.sub_diag; reflexivity.
Qed.

Lemma decArrayAt_fresh (h : Heap) (xs : list DecStep.t) :
  decArrayAt (h ++ [DecArray xs]) (List.length h) = xs.
Proof.
  unfold decArrayAt. rewrite nth_error_app2 by lia.
  rewrite Nat.sub_diag; reflexivity.
Qed.

Lemma sameTables_refl (s : TokenVisualizer.t) : sameTables s s.
Proof. repeat split. Qed.

Lemma sameTables_trans (s1 s2 s3 : TokenVisualizer.t) :
  sameTables s1 s2 -> sameTables s2 s3 -> sameTables s1 s3.
Proof.
  intros (A & B & C) (A' & B' & C'); repeat split; congruence.
Qed.

Lemma encodeWordTokens_tables (s1 s2 : TokenVisualizer.t) (word : jsstring) :
  sameTables s1 s2 -> encodeWordTokens s1 word = encodeWordTokens s2 word.
Proof.
  intros (A & _ & C); unfold encodeWordTokens, encodeToAscii.
  rewrite A, C; reflexivity.
Qed.

Lemma encodeStepsFrom_tables (s1 s2 : TokenVisualizer.t)
      (words : list jsstring) (index : Z) :
  sameTables s1 s2 ->
  encodeStepsFrom s1 words index = encodeStepsFrom s2 words index.
Proof.
  intros (A & _ & C); revert index; induction words as [|word words IH];
    intros index; simpl; [reflexivity|].
  rewrite IH. unfold encodeWordStep, encodeToAscii. rewrite A, C; reflexivity.
Qed.

Lemma encodedTokens_tables (s1 s2 : TokenVisualizer.t) (text : jsstring) :
  sameTables s1 s2 -> encodedTokens s1 text = encodedTokens s2 text.
Proof.
  intros T; unfold encodedTokens.
  induction (tokenizeWords text) as [|word words IH]; simpl;
    [reflexivity|].
  rewrite IH, (encodeWordTokens_tables s1 s2 word T); reflexivity.
Qed.

Lemma decodeTokenStep_tables (s1 s2 : TokenVisualizer.t) (token index : Z) :
  sameTables s1 s2 -> decodeTokenStep s1 token index = decodeTokenStep s2 token index.
Proof.
  intros (_ & B & C); unfold decodeTokenStep. rewrite B, C; reflexivity.
Qed.

Lemma decodeStepsFrom_tables (s1 s2 : TokenVisualizer.t)
      (tokens : list Z) (index : Z) :
  sameTables s1 s2 ->
  decodeStepsFrom s1 tokens index = decodeStepsFrom s2 tokens index.
Proof.
  intros T; revert index; induction tokens as [|token tokens IH];
    intros index; simpl; [reflexivity|].
  rewrite IH, (decodeTokenStep_tables s1 s2 token index T); reflexivity.
Qed.

Lemma decodedText_tables (s1 s2 : TokenVisualizer.t) (tokens : list Z) :
  sameTables s1 s2 -> decodedText s1 tokens = decodedText s2 tokens.
Proof.
  intros T; unfold decodedText.
  induction tokens as [|token tokens IH]; simpl; [reflexivity|].
  rewrite IH, (decodeTokenStep_tables s1 s2 token 0 T); reflexivity.
Qed.

(** The encoding loop: the tokens it returns and the pushes it makes. *)
Lemma forEachM_encodeWord (words : list jsstring) :
  forall (index : Z) (tokens : list Z) (w : World),
    forEachM encodeWord words index tokens w =
    (tokens ++ flat_map (encodeWordTokens (this w)) words,
     {| heap := updateAt (TokenVisualizer.encodingSteps (this w))
                         (pushAllEnc (encodeStepsFrom (this w) words index))
                         (heap w);
        this := this w |}).
Proof.
  induction words as [|word words IH]; intros index tokens [h self]; simpl.
  - unfold ret. rewrite app_nil_r. f_equal. f_equal.
    symmetry; apply updateAt_same.
    intros [xs|xs]; simpl; rewrite ?app_nil_r; reflexivity.
  - unfold bind at 1. unfold encodeWord at 1.
    unfold bind, getThis, pushEncodingStep, ret; simpl.
    unfold encodeWordTokens at 1, encodeWordStep at 1.
    destruct (JsMap.get jsstring_eqb (toLowerCase word)
                        (TokenVisualizer.vocabulary self)) as [tokenId|];
      rewrite IH; simpl; rewrite <- app_assoc; simpl;
      (f_equal; f_equal; rewrite updateAt_twice; apply updateAt_ext;
       intros [xs|xs]; simpl; rewrite <- ?app_assoc; reflexivity).
Qed.

(** The decoding loop. *)
Lemma forEachM_decodeToken (tokens : list Z) :
  forall (index : Z) (text : jsstring) (w : World),
    forEachM decodeToken tokens index text w =
    (text ++ decodedText (this w) tokens,
     {| heap := updateAt (TokenVisualizer.decodingSteps (this w))
                         (pushAllDec (decodeStepsFrom (this w) tokens index))
                         (heap w);
        this := this w |}).
Proof.
  induction tokens as [|token tokens IH]; intros index text [h self]; simpl.
  - unfold ret, decodedText; simpl. rewrite app_nil_r. f_equal. f_equal.
    symmetry; apply updateAt_same.
    intros [xs|xs]; simpl; rewrite ?app_nil_r; reflexivity.
  - unfold bind at 1. unfold decodeToken at 1.
    unfold bind, getThis, pushDecodingStep, ret; simpl.
    unfold decodedText; simpl. unfold decodeTokenStep at 1 3.
    destruct (JsMap.get Z.eqb token (TokenVisualizer.reverseVocabulary self))
      as [unit|];
      [| destruct (TokenVisualizer.asciiOffset self <=? token)];
      rewrite IH; simpl; unfold decodedText; rewrite <- app_assoc; simpl;
      (f_equal; f_equal; rewrite updateAt_twice; apply updateAt_ext;
       intros [xs|xs]; simpl; rewrite <- ?app_assoc; reflexivity).
Qed.

(** What [encodeText] returns and the world it leaves. *)
Lemma encodeText_run (text : jsstring) (w : World) :
  encodeText text w =
  if nonEmpty text then
    ({| EncodeResult.tokens := encodedTokens (this w) text;
        EncodeResult.steps := List.length (heap w);
        EncodeResult.originalText := Some text;
        EncodeResult.tokenCount :=
          Some (Z.of_nat (List.length (encodedTokens (this w) text)));
        EncodeResult.characterCount := Some (Z.of_nat (List.length text)) |},
     {| heap := heap w ++ [EncArray (encodeStepsFrom (this w) (tokenizeWords text) 0)];
        this := withEncodingSteps (this w) (List.length (heap w)) |})
  else
    ({| EncodeResult.tokens := [];
        EncodeResult.steps := List.length (heap w);
        EncodeResult.originalText := None;
        EncodeResult.tokenCount := None;
        EncodeResult.characterCount := None |},
     {| heap := heap w ++ [EncArray []]; this := this w |}).
Proof.
  unfold encodeText. destruct (nonEmpty text); simpl; [|reflexivity].
  unfold bind at 1. unfold newArray at 1.
  unfold bind at 1. unfold setEncodingSteps at 1. simpl.
  unfold bind at 1. rewrite forEachM_encodeWord. simpl.
  unfold bind, getThis, ret; simpl.
  rewrite updateAt_fresh; simpl.
  assert (T : sameTables (withEncodingSteps (this w) (List.length (heap w)))
                         (this w)) by (repeat split).
  rewrite (encodeStepsFrom_tables _ _ _ _ T).
  unfold encodedTokens.
  assert (E : flat_map (encodeWordTokens
                          (withEncodingSteps (this w) (List.length (heap w))))
                       (tokenizeWords text) =
              flat_map (encodeWordTokens (this w)) (tokenizeWords text)).
  { apply (encodedTokens_tables _ _ text T). }
  rewrite E; reflexivity.
Qed.

(** What [decodeTokens] returns and the world it leaves. *)
Lemma decodeTokens_run (tokens : list Z) (w : World) :
  decodeTokens tokens w =
  match tokens with
  | [] =>
      ({| DecodeResult.text := [];
          DecodeResult.steps := List.length (heap w);
          DecodeResult.tokenCount := None |},
       {| heap := heap w ++ [DecArray []]; this := this w |})
  | _ :: _ =>
      ({| DecodeResult.text := decodedText (this w) tokens;
          DecodeResult.steps := List.length (heap w);
          DecodeResult.tokenCount := Some (Z.of_nat (List.length tokens)) |},
       {| heap := heap w ++ [DecArray (decodeStepsFrom (this w) tokens 0)];
          this := withDecodingSteps (this w) (List.length (heap w)) |})
  end.
Proof.
  destruct tokens as [|token tokens]; [reflexivity|].
  unfold decodeTokens.
  unfold bind at 1. unfold newArray at 1.
  unfold bind at 1. unfold setDecodingSteps at 1. simpl heap. simpl this.
  unfold bind at 1. rewrite forEachM_decodeToken. simpl heap. simpl this.
  unfold bind, getThis, ret.
  cbn [this heap TokenVisualizer.decodingSteps withDecodingSteps app].
  rewrite updateAt_fresh.
  assert (T : sameTables (withDecodingSteps (this w) (List.length (heap w)))
                         (this w)) by (repeat split).
  unfold withDecodingSteps in T |- *.
  rewrite (decodeStepsFrom_tables _ _ _ _ T).
  rewrite (decodedText_tables _ _ _ T).
  reflexivity.
Qed.

Lemma getEncodingStats_run (text : jsstring) (w : World) :
  getEncodingStats text w =
  (let tokens := EncodeResult.tokens (fst (encodeText text w)) in
   {| Stats.characterCount := Z.of_nat (List.length text);
      Stats.tokenCount := Z.of_nat (List.length tokens);
      Stats.compressionRatio :=
        compressionRatioOf (Z.of_nat (List.length text))
                           (Z.of_nat (List.length tokens));
      Stats.tokens := tokens |},
   snd (encodeText text w)).
Proof.
  unfold getEncodingStats, bind, ret.
  destruct (encodeText text w) as [encoded w']; reflexivity.
Qed.

(** On the empty text the splitter yields nothing, so the tokens of the
    early return are those of the general formula. *)
Lemma encodeText_tokens (text : jsstring) (w : World) :
  EncodeResult.tokens (fst (encodeText text w)) = encodedTokens (this w) text.
Proof.
  rewrite encodeText_run. destruct text; reflexivity.
Qed.

(** No call changes the vocabulary tables. *)
Lemma exec_tables (w : World) (c : Call) :
  sameTables (this (exec w c)) (this w).
Proof.
  destruct c as [text|tokens|text|term incl]; simpl.
  - rewrite encodeText_run; destruct (nonEmpty text); repeat split.
  - rewrite decodeTokens_run; destruct tokens; repeat split.
  - rewrite getEncodingStats_run; simpl.
    rewrite encodeText_run; destruct (nonEmpty text); repeat split.
  - apply sameTables_refl.
Qed.

Lemma fold_exec_tables (calls : list Call) (w : World) :
  sameTables (this (fold_left exec calls w)) (this w).
Proof.
  revert w; induction calls as [|c calls IH]; intros w; simpl.
  - apply sameTables_refl.
  - eapply sameTables_trans; [apply IH | apply exec_tables].
Qed.

Lemma tokenizerAfter_tables (calls : list Call) :
  sameTables (this (tokenizerAfter calls)) (this newTokenVisualizer).
Proof. apply fold_exec_tables. Qed.

(** Calls only allocate: the heap a call finds is a prefix of the heap it
    leaves. *)
Lemma exec_heap (w : World) (c : Call) :
  exists fresh, heap (exec w c) = heap w ++ fresh.
Proof.
  destruct c as [text|tokens|text|term incl]; simpl.
  - rewrite encodeText_run; destruct (nonEmpty text); simpl; eauto.
  - rewrite decodeTokens_run; destruct tokens; simpl; eauto.
  - rewrite getEncodingStats_run; simpl.
    rewrite encodeText_run; destruct (nonEmpty text); simpl; eauto.
  - exists []; rewrite app_nil_r; reflexivity.
Qed.

Lemma fold_exec_heap (calls : list Call) (w : World) :
  exists fresh, heap (fold_left exec calls w) = heap w ++ fresh.
Proof.
  revert w; induction calls as [|c calls IH]; intros w; simpl.
  - exists []; rewrite app_nil_r; reflexivity.
  - destruct (IH (exec w c)) as [f2 E2]. destruct (exec_heap w c) as [f1 E1].
    exists (f1 ++ f2). rewrite E2, E1, app_assoc; reflexivity.
Qed.

(* ===================================================================== *)
(** * The vocabulary tables *)
(* ===================================================================== *)

Lemma fold_addWord (words : list jsstring) (st : VocabState) :
  fold_left addWord words st = fold_left addEntry (map toLowerCase words) st.
Proof.
  revert st; induction words as [|word words IH]; intros st; simpl;
    [reflexivity | apply IH].
Qed.

Lemma initializeVocabulary_seedUnits :
  initializeVocabulary = fold_left addEntry seedUnits emptyVocabState.
Proof.
  unfold initializeVocabulary, seedUnits.
  rewrite fold_addWord, !fold_left_app; reflexivity.
Qed.

(** The loop invariant of the three [forEach] loops: after the units
    [units] have been added, the counter is their number, the inverse map
    has exactly the ids below it, each bound to the unit added at that
    position, and the forward map sends a unit to its last position. *)
Lemma addEntry_invariant (units : list jsstring) :
  let st := fold_left addEntry units emptyVocabState in
  vsTokenId st = Z.of_nat (List.length units) /\
  (forall id, JsMap.get Z.eqb id (vsReverse st) =
              if (0 <=? id) && (id <? Z.of_nat (List.length units))
              then nth_error units (Z.to_nat id) else None) /\
  (forall u id, JsMap.get jsstring_eqb u (vsVocabulary st) = Some id <->
                lastAt units u id) /\
  map fst (vsReverse st) = map Z.of_nat (seq 0 (List.length units)).
Proof.
  induction units as [|x units IH] using rev_ind; simpl.
  - split; [reflexivity|]. split; [|split; [|reflexivity]].
    + intros id. destruct ((0 <=? id) && (id <? 0)); [|reflexivity].
      destruct (Z.to_nat id); reflexivity.
    + intros u id; split; [discriminate|].
      intros (_ & H & _). destruct (Z.to_nat id); discriminate.
  - rewrite fold_left_app; simpl.
    set (st := fold_left addEntry units emptyVocabState) in *.
    destruct IH as (Hid & Hrev & Hvoc & Hkeys).
    rewrite length_app; simpl List.length.
    unfold addEntry; simpl. rewrite Hid.
    split; [lia|]. split; [|split].
    + intros id.
      destruct (Z.eq_dec (Z.of_nat (List.length units)) id) as [E|N].
      * subst id. rewrite (get_set_same Z.eqb Z.eqb_eq).
        replace ((0 <=? Z.of_nat (List.length units)) &&
                 (Z.of_nat (List.length units) <?
                  Z.of_nat (List.length units + 1))) with true
          by (symmetry; apply andb_true_iff; split;
              [apply Z.leb_le | apply Z.ltb_lt]; lia).
        rewrite Nat2Z.id, nth_error_app2, Nat.sub_diag by lia. reflexivity.
      * rewrite (get_set_other Z.eqb Z.eqb_eq) by exact N.
        rewrite Hrev.
        destruct (0 <=? id) eqn:A; simpl; [|reflexivity].
        apply Z.leb_le in A.
        destruct (id <? Z.of_nat (List.length units)) eqn:B.
        -- apply Z.ltb_lt in B.
           replace (id <? Z.of_nat (List.length units + 1)) with true
             by (symmetry; apply Z.ltb_lt; lia).
           rewrite nth_error_app1 by lia. reflexivity.
        -- apply Z.ltb_ge in B.
           replace (id <? Z.of_nat (List.length units + 1)) with false
             by (symmetry; apply Z.ltb_ge; lia).
           reflexivity.
    + intros u id.
      destruct (jsstring_eqb x u) eqn:E.
      * apply jsstring_eqb_eq in E; subst u.
        rewrite (get_set_same jsstring_eqb jsstring_eqb_eq).
        split.
        -- intros H; injection H as <-. unfold lastAt.
           rewrite Nat2Z.id. split; [lia|]. split.
           ++ rewrite nth_error_app2, Nat.sub_diag by lia. reflexivity.
           ++ intros k K. 
              assert (nth_error (units ++ [x]) k = None) as ->
                by (apply nth_error_None; rewrite length_app; simpl; lia).
              discriminate.
        -- intros (P & Q & L). f_equal.
           assert (Z.to_nat id < List.length (units ++ [x]))%nat as B
             by (apply nth_error_Some; rewrite Q; discriminate).
           rewrite length_app in B; simpl in B.
           destruct (Nat.eq_dec (Z.to_nat id) (List.length units)) as [K|K];
             [lia|].
           exfalso. apply (L (List.length units)); [lia|].
           rewrite nth_error_app2, Nat.sub_diag by lia. reflexivity.
      * assert (N : x <> u)
          by (intros ->; rewrite jsstring_eqb_refl in E; discriminate).
        rewrite (get_set_other jsstring_eqb jsstring_eqb_eq) by exact N.
        rewrite Hvoc. unfold lastAt.
        assert (X : forall k, nth_error (units ++ [x]) k = Some u <->
                              nth_error units k = Some u).
        { intros k. destruct (Nat.lt_ge_cases k (List.length units)) as [K|K].
          - rewrite nth_error_app1 by exact K. tauto.
          - rewrite nth_error_app2 by exact K.
            assert (nth_error units k = None) as -> by (apply nth_error_None; lia).
            destruct (k - List.length units)%nat as [|[|j]]; simpl;
              split; try discriminate.
            intros H; injection H as H; contradiction. }
        split; intros (P & Q & L); (split; [exact P|]); split.
        -- apply X; exact Q.
        -- intros k K H. apply X in H. exact (L k K H).
        -- apply X; exact Q.
        -- intros k K H. apply X in H. exact (L k K H).
    + rewrite (set_keys Z.eqb).
      assert (JsMap.has Z.eqb (Z.of_nat (List.length units)) (vsReverse st) = false) as ->.
      { apply has_false_iff. rewrite Hrev.
        replace (Z.of_nat (List.length units) <? Z.of_nat (List.length units))
          with false by (symmetry; apply Z.ltb_ge; lia).
        rewrite andb_false_r; reflexivity. }
      rewrite Hkeys, Nat.add_1_r, seq_S, map_app; reflexivity.
Qed.

Lemma seedUnits_length : List.length seedUnits = 208%nat.
Proof.
  unfold seedUnits. rewrite !length_app, length_map. reflexivity.
Qed.

Lemma tokenizer_vocabulary (calls : list Call) :
  TokenVisualizer.vocabulary (this (tokenizerAfter calls)) =
  vsVocabulary (fold_left addEntry seedUnits emptyVocabState).
Proof.
  destruct (tokenizerAfter_tables calls) as (A & _ & _). rewrite A.
  change (TokenVisualizer.vocabulary (this newTokenVisualizer))
    with (vsVocabulary initializeVocabulary).
  rewrite initializeVocabulary_seedUnits; reflexivity.
Qed.

Lemma tokenizer_reverseVocabulary (calls : list Call) :
  TokenVisualizer.reverseVocabulary (this (tokenizerAfter calls)) =
  vsReverse (fold_left addEntry seedUnits emptyVocabState).
Proof.
  destruct (tokenizerAfter_tables calls) as (_ & B & _). rewrite B.
  change (TokenVisualizer.reverseVocabulary (this newTokenVisualizer))
    with (vsReverse initializeVocabulary).
  rewrite initializeVocabulary_seedUnits; reflexivity.
Qed.

Lemma tokenizer_asciiOffset (calls : list Call) :
  TokenVisualizer.asciiOffset (this (tokenizerAfter calls)) = 2000.
Proof.
  destruct (tokenizerAfter_tables calls) as (_ & _ & C). rewrite C.
  reflexivity.
Qed.

(** The inverse map of the instance: ids 0 .. 207, each bound to the unit
    added at that position. *)
Lemma reverseVocabulary_get (calls : list Call) (id : Z) :
  JsMap.get Z.eqb id (TokenVisualizer.reverseVocabulary (this (tokenizerAfter calls))) =
  if (0 <=? id) && (id <? 208) then nth_error seedUnits (Z.to_nat id) else None.
Proof.
  rewrite tokenizer_reverseVocabulary.
  destruct (addEntry_invariant seedUnits) as (_ & H & _).
  rewrite H, seedUnits_length; reflexivity.
Qed.

Lemma vocabulary_get (calls : list Call) (u : jsstring) (id : Z) :
  JsMap.get jsstring_eqb u (TokenVisualizer.vocabulary (this (tokenizerAfter calls))) = Some id
  <-> lastAt seedUnits u id.
Proof.
  rewrite tokenizer_vocabulary.
  destruct (addEntry_invariant seedUnits) as (_ & _ & H & _). apply H.
Qed.

Lemma reverseVocabulary_miss (calls : list Call) (id : Z) :
  208 <= id ->
  JsMap.get Z.eqb id (TokenVisualizer.reverseVocabulary (this (tokenizerAfter calls))) = None.
Proof.
  intros H. rewrite reverseVocabulary_get.
  replace (id <? 208) with false by (symmetry; apply Z.ltb_ge; lia).
  rewrite andb_false_r; reflexivity.
Qed.

Lemma range_test (id n : Z) :
  (0 <=? id) && (id <? n) = true <-> 0 <= id < n.
Proof.
  rewrite andb_true_iff, Z.leb_le, Z.ltb_lt; tauto.
Qed.

Lemma vocabulary_roundtrip (calls : list Call) (u : jsstring) (id : Z) :
  JsMap.get jsstring_eqb u (TokenVisualizer.vocabulary (this (tokenizerAfter calls))) = Some id ->
  JsMap.get Z.eqb id (TokenVisualizer.reverseVocabulary (this (tokenizerAfter calls))) = Some u.
Proof.
  intros H. apply vocabulary_get in H. destruct H as (P & Q & _).
  rewrite reverseVocabulary_get.
  assert (Z.to_nat id < List.length seedUnits)%nat as B
    by (apply nth_error_Some; rewrite Q; discriminate).
  rewrite seedUnits_length in B.
  replace ((0 <=? id) && (id <? 208)) with true
    by (symmetry; apply range_test; lia).
  exact Q.
Qed.

(* ===================================================================== *)
(** * C5: the vocabulary table after initialization *)
(* ===================================================================== *)

(** C5.  After construction (and after any sequence of calls) the tables
    satisfy: ids were handed out 0, 1, 2, ... without gaps, so the inverse
    map holds exactly the ids 0 .. N-1, N = 208 being the number of seed
    entries, in that order, and binds each id to the unit seeded at that
    position; every unit of the forward map is bound, in the inverse map,
    at its forward id; the forward id of a unit is the last position at
    which the unit was seeded; and when a unit was seeded at two positions
    [i < j], the inverse map still binds [i] to the unit although the
    forward map does not send the unit to [i]. *)
Theorem vocabulary_tables_invariant (calls : list Call) :
  let self := this (tokenizerAfter calls) in
  let V := TokenVisualizer.vocabulary self in
  let R := TokenVisualizer.reverseVocabulary self in
  let N := Z.of_nat (List.length seedUnits) in
  N = Z.of_nat (List.length specialTokens + List.length commonWords
                + List.length punctuation) /\
  map fst (JsMap.entries R) = map Z.of_nat (seq 0 (Z.to_nat N)) /\
  (forall id, JsMap.has Z.eqb id R = true <-> 0 <= id < N) /\
  (forall id, 0 <= id < N ->
              JsMap.get Z.eqb id R = nth_error seedUnits (Z.to_nat id) /\
              JsMap.get Z.eqb id R <> None) /\
  (forall u id, JsMap.get jsstring_eqb u V = Some id ->
                JsMap.get Z.eqb id R = Some u) /\
  (forall u id, JsMap.get jsstring_eqb u V = Some id <->
                lastAt seedUnits u id) /\
  (forall u i j, 0 <= i < j ->
                 nth_error seedUnits (Z.to_nat i) = Some u ->
                 nth_error seedUnits (Z.to_nat j) = Some u ->
                 JsMap.get Z.eqb i R = Some u /\
                 JsMap.get jsstring_eqb u V <> Some i).
Proof.
  cbv zeta. rewrite seedUnits_length.
  assert (G : forall id, 0 <= id < 208 ->
     JsMap.get Z.eqb id (TokenVisualizer.reverseVocabulary (this (tokenizerAfter calls)))
     = nth_error seedUnits (Z.to_nat id)).
  { intros id H. rewrite reverseVocabulary_get.
    replace ((0 <=? id) && (id <? 208)) with true
      by (symmetry; apply range_test; exact H).
    reflexivity. }
  split; [reflexivity|]. split; [|split; [|split; [|split; [|split]]]].
  - unfold JsMap.entries. rewrite tokenizer_reverseVocabulary.
    destruct (addEntry_invariant seedUnits) as (_ & _ & _ & H).
    rewrite H, seedUnits_length; reflexivity.
  - intros id. rewrite has_true_iff, reverseVocabulary_get.
    destruct ((0 <=? id) && (id <? 208)) eqn:E.
    + apply range_test in E. split; [intros _; assumption|].
      intros _. destruct (nth_error seedUnits (Z.to_nat id)) eqn:X; eauto.
      apply nth_error_None in X. rewrite seedUnits_length in X. lia.
    + split; [intros [v X]; discriminate|].
      intros H. apply (proj2 (range_test id 208)) in H.
      rewrite H in E; discriminate.
  - intros id H. rewrite (G id H). split; [reflexivity|].
    intros X. apply nth_error_None in X. rewrite seedUnits_length in X. lia.
  - apply vocabulary_roundtrip.
  - apply vocabulary_get.
  - intros u i j H Hi Hj. split.
    + rewrite G; [exact Hi|].
      assert (Z.to_nat j < List.length seedUnits)%nat
        by (apply nth_error_Some; rewrite Hj; discriminate).
      rewrite seedUnits_length in *. lia.
    + intros X. apply vocabulary_get in X. destruct X as (_ & _ & L).
      apply (L (Z.to_nat j)); [lia | exact Hj].
Qed.

(* ===================================================================== *)
(** * What a caller observes *)
(* ===================================================================== *)

Lemma observeEncode_run (text : jsstring) (w : World) :
  observeEncode (encodeText text w) =
  (encodedTokens (this w) text,
   encodeStepsFrom (this w) (tokenizeWords text) 0,
   if nonEmpty text then Some text else None,
   if nonEmpty text
   then Some (Z.of_nat (List.length (encodedTokens (this w) text))) else None,
   if nonEmpty text then Some (Z.of_nat (List.length text)) else None).
Proof.
  rewrite encodeText_run. destruct text as [|c text]; simpl nonEmpty; cbv iota.
  - unfold observeEncode; simpl. rewrite encArrayAt_fresh; reflexivity.
  - unfold observeEncode. cbn [EncodeResult.tokens EncodeResult.steps heap
      EncodeResult.originalText EncodeResult.tokenCount
      EncodeResult.characterCount].
    rewrite encArrayAt_fresh; reflexivity.
Qed.

Lemma observeDecode_run (tokens : list Z) (w : World) :
  observeDecode (decodeTokens tokens w) =
  (decodedText (this w) tokens,
   decodeStepsFrom (this w) tokens 0,
   match tokens with
   | [] => None
   | _ :: _ => Some (Z.of_nat (List.length tokens))
   end).
Proof.
  rewrite decodeTokens_run. destruct tokens as [|token tokens].
  - unfold observeDecode; simpl. rewrite decArrayAt_fresh; reflexivity.
  - unfold observeDecode. cbn [DecodeResult.text DecodeResult.steps heap
      DecodeResult.tokenCount].
    rewrite decArrayAt_fresh; reflexivity.
Qed.

Lemma decodeTokens_text (tokens : list Z) (w : World) :
  DecodeResult.text (fst (decodeTokens tokens w)) = decodedText (this w) tokens.
Proof.
  rewrite decodeTokens_run; destruct tokens; reflexivity.
Qed.

Lemma decodeTokens_steps (tokens : list Z) (w : World) :
  decArrayAt (heap (snd (decodeTokens tokens w)))
             (DecodeResult.steps (fst (decodeTokens tokens w))) =
  decodeStepsFrom (this w) tokens 0.
Proof.
  pose proof (observeDecode_run tokens w) as H.
  unfold observeDecode in H.
  destruct (decodeTokens tokens w) as [res w']; simpl.
  injection H as _ H _; exact H.
Qed.

Lemma encodeText_steps (text : jsstring) (w : World) :
  encArrayAt (heap (snd (encodeText text w)))
             (EncodeResult.steps (fst (encodeText text w))) =
  encodeStepsFrom (this w) (tokenizeWords text) 0.
Proof.
  pose proof (observeEncode_run text w) as H.
  unfold observeEncode in H.
  destruct (encodeText text w) as [res w']; simpl.
  injection H as _ H _ _ _; exact H.
Qed.

Lemma decodedText_app (self : TokenVisualizer.t) (a b : list Z) :
  decodedText self (a ++ b) = decodedText self a ++ decodedText self b.
Proof. unfold decodedText; apply flat_map_app. Qed.

Lemma decodeStepsFrom_length (self : TokenVisualizer.t) (tokens : list Z)
      (index : Z) :
  List.length (decodeStepsFrom self tokens index) = List.length tokens.
Proof.
  revert index; induction tokens as [|t tokens IH]; intros index; simpl;
    [reflexivity | rewrite IH; reflexivity].
Qed.

Lemma decodeStepsFrom_nth (self : TokenVisualizer.t) (pre post : list Z)
      (t index : Z) :
  nth_error (decodeStepsFrom self (pre ++ t :: post) index) (List.length pre)
  = Some (decodeTokenStep self t (index + Z.of_nat (List.length pre))).
Proof.
  revert index; induction pre as [|p pre IH]; intros index.
  - simpl. rewrite Z.add_0_r; reflexivity.
  - cbn [app decodeStepsFrom List.length nth_error]. rewrite IH.
    do 2 f_equal. lia.
Qed.

Lemma encodeStepsFrom_length (self : TokenVisualizer.t)
      (words : list jsstring) (index : Z) :
  List.length (encodeStepsFrom self words index) = List.length words.
Proof.
  revert index; induction words as [|x words IH]; intros index; simpl;
    [reflexivity | rewrite IH; reflexivity].
Qed.

(** The world after one more call. *)
Lemma tokenizerAfter_snoc (calls : list Call) (c : Call) :
  tokenizerAfter (calls ++ [c]) = exec (tokenizerAfter calls) c.
Proof. unfold tokenizerAfter; rewrite fold_left_app; reflexivity. Qed.

(** How one token is decoded, in a world of the instance. *)
Lemma decode_one (calls : list Call) (pre post : list Z) (t : Z) :
  let w := tokenizerAfter calls in
  let r := decodeTokens (pre ++ t :: post) w in
  DecodeResult.text (fst r) =
    DecodeResult.text (fst (decodeTokens pre w))
    ++ DecStep.output (decodeTokenStep (this w) t (Z.of_nat (List.length pre)))
    ++ DecodeResult.text (fst (decodeTokens post w)) /\
  nth_error (decArrayAt (heap (snd r)) (DecodeResult.steps (fst r)))
            (List.length pre)
    = Some (decodeTokenStep (this w) t (Z.of_nat (List.length pre))) /\
  List.length (decArrayAt (heap (snd r)) (DecodeResult.steps (fst r)))
    = List.length (pre ++ t :: post).
Proof.
  cbv zeta. rewrite !decodeTokens_text, decodeTokens_steps.
  rewrite decodeStepsFrom_nth, decodeStepsFrom_length, decodedText_app.
  split; [|split; reflexivity].
  f_equal. unfold decodedText at 1. cbn [flat_map]. f_equal.
  unfold decodeTokenStep.
  destruct (JsMap.get Z.eqb t _); [reflexivity|].
  destruct (_ <=? t); reflexivity.
Qed.

(* ===================================================================== *)
(** * C2, C10, C3: decoding *)
(* ===================================================================== *)

(** C2.  [decodeTokens] is defined on every list of integers.  A token
    that is not an id of the inverse map and lies below the offset 2000
    contributes the text "<UNK>" at its place, between the texts of the
    tokens before and after it, and its step (number: position + 1) records
    "Token <t> not found, using <UNK>" with output "<UNK>"; there is one
    step per token, so decoding went on after it. *)
Theorem decode_unknown_token (calls : list Call) (pre post : list Z) (t : Z) :
  JsMap.has Z.eqb t
    (TokenVisualizer.reverseVocabulary (this (tokenizerAfter calls))) = false ->
  t < 2000 ->
  let w := tokenizerAfter calls in
  let r := decodeTokens (pre ++ t :: post) w in
  DecodeResult.text (fst r) =
    DecodeResult.text (fst (decodeTokens pre w)) ++ str "<UNK>"
    ++ DecodeResult.text (fst (decodeTokens post w)) /\
  nth_error (decArrayAt (heap (snd r)) (DecodeResult.steps (fst r)))
            (List.length pre)
    = Some {| DecStep.step := Z.of_nat (List.length pre) + 1;
              DecStep.input := t;
              DecStep.process :=
                str "Token " ++ numberToString t
                    ++ str " not found, using <UNK>";
              DecStep.output := str "<UNK>" |} /\
  List.length (decArrayAt (heap (snd r)) (DecodeResult.steps (fst r)))
    = List.length (pre ++ t :: post).
Proof.
  intros H L. cbv zeta.
  destruct (decode_one calls pre post t) as (A & B & C).
  assert (S : decodeTokenStep (this (tokenizerAfter calls)) t
                              (Z.of_nat (List.length pre)) =
              {| DecStep.step := Z.of_nat (List.length pre) + 1;
                 DecStep.input := t;
                 DecStep.process :=
                   str "Token " ++ numberToString t
                       ++ str " not found, using <UNK>";
                 DecStep.output := str "<UNK>" |}).
  { unfold decodeTokenStep. apply has_false_iff in H. rewrite H.
    rewrite tokenizer_asciiOffset.
    replace (2000 <=? t) with false by (symmetry; apply Z.leb_gt; exact L).
    reflexivity. }
  rewrite S in A, B. auto.
Qed.


(** C3.  For every unit [u] of the forward map, with id [id], decoding the
    one-token list [[id]] gives the text [u]. *)
Theorem decode_vocabulary_id (calls : list Call) (u : jsstring) (id : Z) :
  JsMap.get jsstring_eqb u
    (TokenVisualizer.vocabulary (this (tokenizerAfter calls))) = Some id ->
  DecodeResult.text (fst (decodeTokens [id] (tokenizerAfter calls))) = u.
Proof.
  intros H. apply vocabulary_roundtrip in H.
  rewrite decodeTokens_text. unfold decodedText; simpl.
  unfold decodeTokenStep. rewrite H. simpl. apply app_nil_r.
Qed.

(* ===================================================================== *)
(** * C7: unit splitting *)
(* ===================================================================== *)

Lemma flush_acc (tokens : list jsstring) (cur : jsstring) :
  flush tokens cur = tokens ++ flush [] cur.
Proof.
  unfold flush; destruct (nonEmpty cur); simpl;
    [reflexivity | rewrite app_nil_r; reflexivity].
Qed.

(** The units already pushed are a prefix of the result. *)
Lemma tokenizeFrom_acc (text : jsstring) :
  forall tokens cur,
    tokenizeFrom text tokens cur = tokens ++ tokenizeFrom text [] cur.
Proof.
  induction text as [|c text IH]; intros tokens cur; simpl.
  - apply flush_acc.
  - destruct (isWhitespace c).
    + rewrite IH. rewrite (IH (if negb (c =? 32) then _ else _)).
      rewrite (flush_acc tokens cur).
      destruct (negb (c =? 32)); rewrite <- ?app_assoc; reflexivity.
    + destruct (isPunctuation c).
      * rewrite IH. rewrite (IH (flush [] cur ++ [[c]])).
        rewrite (flush_acc tokens cur), <- !app_assoc; reflexivity.
      * apply IH.
Qed.

Lemma isRegular_true (c : Z) :
  isRegular c = true -> isWhitespace c = false /\ isPunctuation c = false.
Proof.
  unfold isRegular. rewrite andb_true_iff, !negb_true_iff; tauto.
Qed.

Lemma isRegular_false (c : Z) :
  isRegular c = false ->
  isWhitespace c = true \/ (isWhitespace c = false /\ isPunctuation c = true).
Proof.
  unfold isRegular. destruct (isWhitespace c), (isPunctuation c); simpl;
    auto; discriminate.
Qed.

(** A separator flushes the pending run, adds its own unit, and the scan
    restarts with nothing pending. *)
Lemma tokenizeFrom_sep (c : Z) (rest : jsstring) (tokens : list jsstring)
      (cur : jsstring) :
  isRegular c = false ->
  tokenizeFrom (c :: rest) tokens cur =
  flush tokens cur ++ sepUnits c ++ tokenizeWords rest.
Proof.
  intros H. unfold tokenizeWords, sepUnits. simpl.
  destruct (isRegular_false c H) as [W|[W P]]; rewrite W.
  - rewrite tokenizeFrom_acc.
    destruct (c =? 32); simpl; rewrite <- ?app_assoc; reflexivity.
  - rewrite P, tokenizeFrom_acc.
    assert ((c =? 32) = false) as ->.
    { destruct (c =? 32) eqn:E; [|reflexivity].
      apply Z.eqb_eq in E; subst c. discriminate W. }
    rewrite <- app_assoc; reflexivity.
Qed.

(** Regular characters only extend the pending run. *)
Lemma tokenizeFrom_run (run : jsstring) :
  forall rest tokens cur,
    forallb isRegular run = true ->
    tokenizeFrom (run ++ rest) tokens cur = tokenizeFrom rest tokens (cur ++ run).
Proof.
  induction run as [|c run IH]; intros rest tokens cur H; simpl.
  - rewrite app_nil_r; reflexivity.
  - simpl in H. apply andb_true_iff in H. destruct H as [R H].
    destruct (isRegular_true c R) as [W P]. rewrite W, P.
    rewrite IH by exact H. rewrite <- app_assoc; reflexivity.
Qed.

Lemma flush_nonempty (run : jsstring) : run <> [] -> flush [] run = [run].
Proof. destruct run; [contradiction | reflexivity]. Qed.

Lemma tokenizeWords_run (run rest : jsstring) :
  run <> [] -> forallb isRegular run = true -> runEnds rest ->
  tokenizeWords (run ++ rest) = run :: tokenizeWords rest.
Proof.
  intros N R E. unfold tokenizeWords at 1.
  rewrite tokenizeFrom_run by exact R. simpl app.
  destruct rest as [|c rest].
  - simpl. rewrite flush_nonempty by exact N. reflexivity.
  - simpl in E. rewrite tokenizeFrom_sep by exact E.
    rewrite flush_nonempty by exact N.
    change (tokenizeWords (c :: rest)) with (tokenizeFrom (c :: rest) [] []).
    rewrite (tokenizeFrom_sep c rest [] []) by exact E. reflexivity.
Qed.

Lemma tokenizeFrom_units (text : jsstring) :
  forall cur, forallb isRegular cur = true ->
              Units (cur ++ text) (tokenizeFrom text [] cur).
Proof.
  induction text as [|c text IH]; intros cur R.
  - simpl. destruct cur as [|d cur]; [constructor|].
    apply (UnitsRun (d :: cur) [] []); try (simpl; auto); try discriminate.
    constructor.
  - destruct (isRegular c) eqn:C.
    + simpl. destruct (isRegular_true c C) as [W P]. rewrite W, P.
      replace (cur ++ c :: text) with ((cur ++ [c]) ++ text)
        by (rewrite <- app_assoc; reflexivity).
      apply IH. rewrite forallb_app, R; simpl. rewrite C; reflexivity.
    + rewrite tokenizeFrom_sep by exact C.
      assert (U : Units (c :: text) (sepUnits c ++ tokenizeWords text)).
      { unfold sepUnits. destruct (c =? 32) eqn:E.
        - apply Z.eqb_eq in E; subst c. apply UnitsSpace. apply (IH []).
          reflexivity.
        - apply Z.eqb_neq in E. apply UnitsSeparator; auto.
          apply (IH []); reflexivity. }
      destruct cur as [|d cur]; [exact U|].
      rewrite flush_nonempty by discriminate.
      apply (UnitsRun (d :: cur)); auto; discriminate.
Qed.

(** The units of a text satisfy the rules. *)
Lemma units_of_text (text : jsstring) : Units text (tokenizeWords text).
Proof. apply (tokenizeFrom_units text []). reflexivity. Qed.

(** C7.  The units [tokenizeWords] returns for a text are exactly the ones
    the four rules describe: a maximal run of characters that are neither
    whitespace nor punctuation is one unit (a run ends only at a separator
    or at the end of the text, where the pending run is flushed); a
    punctuation character and a whitespace character other than the space
    is a unit of its own; the space gives no unit.  The rules determine the
    sequence, and the function computes it. *)
Theorem tokenizeWords_units (text : jsstring) (us : list jsstring) :
  Units text us <-> us = tokenizeWords text.
Proof.
  split.
  - induction 1 as [|run rest us N R E U IH|rest us U IH|c rest us C N U IH].
    + reflexivity.
    + rewrite tokenizeWords_run by assumption. rewrite IH; reflexivity.
    + unfold tokenizeWords. rewrite tokenizeFrom_sep by reflexivity.
      rewrite IH; reflexivity.
    + unfold tokenizeWords. rewrite tokenizeFrom_sep by exact C.
      unfold sepUnits. apply Z.eqb_neq in N. rewrite N, IH. reflexivity.
  - intros ->. apply (tokenizeFrom_units text []). reflexivity.
Qed.

(* ===================================================================== *)
(** * C1, C4: encoding *)
(* ===================================================================== *)

(** C1, as the code has it.  For a non-empty text the result of
    [encodeText] has a [tokenCount] that is a non-negative integer, the
    length of [tokens].  For the empty text the early return gives an
    object with [tokens = []] and no [tokenCount] property. *)
Theorem encodeText_tokenCount (calls : list Call) (text : jsstring) :
  let r := fst (encodeText text (tokenizerAfter calls)) in
  (text <> [] ->
   exists n, EncodeResult.tokenCount r = Some n /\ 0 <= n /\
             n = Z.of_nat (List.length (EncodeResult.tokens r))) /\
  (text = [] ->
   EncodeResult.tokens r = [] /\ EncodeResult.tokenCount r = None).
Proof.
  cbv zeta. rewrite encodeText_run. split.
  - intros N. destruct text as [|c text]; [contradiction|].
    simpl. eexists; split; [reflexivity|]. split; [lia | reflexivity].
  - intros ->. simpl. auto.
Qed.

Lemma tokenizeWords_single (c : Z) (u : jsstring) :
  tokenizeWords [c] = [u] -> u = [c] /\ c <> 32.
Proof.
  destruct (isRegular c) eqn:R.
  - change [c] with ([c] ++ []) at 1.
    rewrite tokenizeWords_run; [|discriminate|simpl; rewrite R; reflexivity
                                |exact I].
    intros H; injection H as <-. split; [reflexivity|].
    intros ->. discriminate R.
  - unfold tokenizeWords. rewrite tokenizeFrom_sep by exact R.
    unfold sepUnits. destruct (c =? 32) eqn:E; simpl.
    + discriminate.
    + intros H; injection H as <-. apply Z.eqb_neq in E. auto.
Qed.

(** C4.  Let [c] be a single character (one code unit) whose unit [u], as
    split from the one-character text, has no entry under its lower-cased
    form.  Encoding the text [c] and decoding the resulting tokens on the
    same instance gives back the text [c]. *)
Theorem encode_decode_single_char (calls : list Call) (c : Z) (u : jsstring) :
  isCodeUnit c ->
  tokenizeWords [c] = [u] ->
  JsMap.has jsstring_eqb (toLowerCase u)
    (TokenVisualizer.vocabulary (this (tokenizerAfter calls))) = false ->
  let enc := encodeText [c] (tokenizerAfter calls) in
  let dec := decodeTokens (EncodeResult.tokens (fst enc)) (snd enc) in
  EncodeResult.tokens (fst enc) = [c + 2000] /\
  DecodeResult.text (fst dec) = [c].
Proof.
  intros [C0 C1] T H. cbv zeta.
  destruct (tokenizeWords_single c u T) as [-> _].
  apply has_false_iff in H.
  assert (E : EncodeResult.tokens (fst (encodeText [c] (tokenizerAfter calls)))
              = [c + 2000]).
  { rewrite encodeText_tokens. unfold encodedTokens. rewrite T. simpl.
    unfold encodeWordTokens. rewrite H. unfold encodeToAscii.
    rewrite tokenizer_asciiOffset. reflexivity. }
  split; [exact E|]. rewrite E.
  change (snd (encodeText [c] (tokenizerAfter calls)))
    with (exec (tokenizerAfter calls) (CallEncodeText [c])).
  rewrite <- tokenizerAfter_snoc.
  rewrite decodeTokens_text. unfold decodedText; simpl.
  unfold decodeTokenStep.
  rewrite reverseVocabulary_miss by lia.
  rewrite tokenizer_asciiOffset.
  replace (2000 <=? c + 2000) with true by (symmetry; apply Z.leb_le; lia).
  simpl. unfold fromCharCode.
  replace (c + 2000 - 2000) with c by lia.
  rewrite Z.mod_small by lia. reflexivity.
Qed.

(* ===================================================================== *)
(** * C9: calls do not interfere *)
(* ===================================================================== *)

Lemma encArrayAt_grow (h fresh : Heap) (l : loc) :
  (l < List.length h)%nat -> encArrayAt (h ++ fresh) l = encArrayAt h l.
Proof.
  intros L; unfold encArrayAt. rewrite nth_error_app1 by exact L.
  reflexivity.
Qed.

Lemma decArrayAt_grow (h fresh : Heap) (l : loc) :
  (l < List.length h)%nat -> decArrayAt (h ++ fresh) l = decArrayAt h l.
Proof.
  intros L; unfold decArrayAt. rewrite nth_error_app1 by exact L.
  reflexivity.
Qed.

Lemma encodeText_steps_allocated (text : jsstring) (w : World) :
  (EncodeResult.steps (fst (encodeText text w))
   < List.length (heap (snd (encodeText text w))))%nat.
Proof.
  rewrite encodeText_run; destruct (nonEmpty text); simpl;
    rewrite length_app; simpl; lia.
Qed.

Lemma decodeTokens_steps_allocated (tokens : list Z) (w : World) :
  (DecodeResult.steps (fst (decodeTokens tokens w))
   < List.length (heap (snd (decodeTokens tokens w))))%nat.
Proof.
  rewrite decodeTokens_run; destruct tokens; simpl;
    rewrite length_app; simpl; lia.
Qed.

Lemma getVocabulary_tables (s1 s2 : TokenVisualizer.t) (term : jsstring)
      (incl : bool) :
  sameTables s1 s2 -> getVocabulary s1 term incl = getVocabulary s2 term incl.
Proof.
  intros (A & _ & C). unfold getVocabulary, vocabularyEntries, asciiEntries.
  rewrite A, C; reflexivity.
Qed.

(** C9.  On the global instance, whatever calls came before:
    - [encodeText], [decodeTokens], [getEncodingStats] and [getVocabulary]
      return the same tokens, text, counts and step contents for the same
      argument;
    - a call leaves the vocabulary tables as they were and leaves every
      object that was on the heap untouched (it only allocates);
    - hence the steps of a result read the same after any later calls. *)
Theorem calls_do_not_interfere (calls1 calls2 : list Call) :
  let w1 := tokenizerAfter calls1 in
  let w2 := tokenizerAfter calls2 in
  (forall text,
     observeEncode (encodeText text w1) = observeEncode (encodeText text w2)) /\
  (forall tokens,
     observeDecode (decodeTokens tokens w1)
     = observeDecode (decodeTokens tokens w2)) /\
  (forall text,
     fst (getEncodingStats text w1) = fst (getEncodingStats text w2)) /\
  (forall term incl,
     getVocabulary (this w1) term incl = getVocabulary (this w2) term incl) /\
  (forall c, sameTables (this (exec w1 c)) (this w1) /\
             exists fresh, heap (exec w1 c) = heap w1 ++ fresh) /\
  (forall text later,
     let r := encodeText text w1 in
     observeEncode (fst r, fold_left exec later (snd r)) = observeEncode r) /\
  (forall tokens later,
     let r := decodeTokens tokens w1 in
     observeDecode (fst r, fold_left exec later (snd r)) = observeDecode r).
Proof.
  cbv zeta.
  assert (T : sameTables (this (tokenizerAfter calls1))
                         (this (tokenizerAfter calls2))).
  { destruct (tokenizerAfter_tables calls1) as (A & B & C).
    destruct (tokenizerAfter_tables calls2) as (A' & B' & C').
    repeat split; congruence. }
  split; [|split; [|split; [|split; [|split; [|split]]]]].
  - intros text. rewrite !observeEncode_run.
    rewrite (encodedTokens_tables _ _ text T).
    rewrite (encodeStepsFrom_tables _ _ _ _ T). reflexivity.
  - intros tokens. rewrite !observeDecode_run.
    rewrite (decodedText_tables _ _ tokens T).
    rewrite (decodeStepsFrom_tables _ _ _ _ T). reflexivity.
  - intros text. rewrite !getEncodingStats_run. cbn [fst].
    rewrite !encodeText_tokens, (encodedTokens_tables _ _ text T).
    reflexivity.
  - intros term incl. apply getVocabulary_tables; exact T.
  - intros c. split; [apply exec_tables | apply exec_heap].
  - intros text later.
    destruct (fold_exec_heap later (snd (encodeText text (tokenizerAfter calls1))))
      as [fresh F].
    pose proof (encodeText_steps_allocated text (tokenizerAfter calls1)) as L.
    destruct (encodeText text (tokenizerAfter calls1)) as [res w'].
    unfold observeEncode. cbn [fst snd] in *.
    rewrite F, encArrayAt_grow by exact L. reflexivity.
  - intros tokens later.
    destruct (fold_exec_heap later (snd (decodeTokens tokens (tokenizerAfter calls1))))
      as [fresh F].
    pose proof (decodeTokens_steps_allocated tokens (tokenizerAfter calls1)) as L.
    destruct (decodeTokens tokens (tokenizerAfter calls1)) as [res w'].
    unfold observeDecode. cbn [fst snd] in *.
    rewrite F, decArrayAt_grow by exact L. reflexivity.
Qed.

(* ===================================================================== *)
(** * C8: listing the vocabulary *)
(* ===================================================================== *)

Lemma insertByToken_perm (x : VocabEntry.t) (l : list VocabEntry.t) :
  Permutation (insertByToken x l) (x :: l).
Proof.
  induction l as [|y l IH]; simpl; [reflexivity|].
  destruct (VocabEntry.token x - VocabEntry.token y <=? 0); [reflexivity|].
  rewrite IH. apply perm_swap.
Qed.

Lemma sortByToken_perm (l : list VocabEntry.t) :
  Permutation (sortByToken l) l.
Proof.
  induction l as [|x l IH]; simpl; [reflexivity|].
  rewrite insertByToken_perm. constructor; exact IH.
Qed.

Lemma insertByToken_sorted (x : VocabEntry.t) (l : list VocabEntry.t) :
  Sorted leToken l -> Sorted leToken (insertByToken x l).
Proof.
  induction l as [|y l IH]; intros S; simpl.
  - repeat constructor.
  - destruct (VocabEntry.token x - VocabEntry.token y <=? 0) eqn:E.
    + apply Z.leb_le in E. constructor; [exact S|].
      constructor. unfold leToken; lia.
    + apply Z.leb_gt in E. inversion S as [|? ? S' H]; subst.
      constructor; [apply IH; exact S'|].
      destruct l as [|z l]; simpl.
      * constructor. unfold leToken; lia.
      * destruct (VocabEntry.token x - VocabEntry.token z <=? 0).
        -- constructor. unfold leToken; lia.
        -- inversion H; subst. constructor; assumption.
Qed.

Lemma sortByToken_sorted (l : list VocabEntry.t) :
  StronglySorted leToken (sortByToken l).
Proof.
  apply Sorted_StronglySorted.
  - intros a b c; unfold leToken; lia.
  - induction l as [|x l IH]; simpl; [constructor|].
    apply insertByToken_sorted; exact IH.
Qed.

Lemma printableAscii_range (i : Z) :
  In i printableAscii <-> 32 <= i <= 126.
Proof.
  unfold printableAscii. rewrite in_map_iff. split.
  - intros (k & <- & K). apply in_seq in K. lia.
  - intros H. exists (Z.to_nat (i - 32)). split; [lia|].
    apply in_seq. lia.
Qed.

Lemma vocabularyEntries_all (self : TokenVisualizer.t) :
  vocabularyEntries self [] =
  map tableEntry (JsMap.entries (TokenVisualizer.vocabulary self)).
Proof.
  unfold vocabularyEntries, JsMap.entries.
  generalize (TokenVisualizer.vocabulary self) as l.
  induction l as [|[word id] l IH]; [reflexivity|].
  simpl in IH |- *. rewrite IH. reflexivity.
Qed.

Lemma asciiEntries_all (calls : list Call) :
  asciiEntries (this (tokenizerAfter calls)) [] = map charEntry printableAscii.
Proof.
  unfold asciiEntries. rewrite tokenizer_asciiOffset.
  assert (R : forall i, In i printableAscii -> 32 <= i <= 126)
    by (intros i; apply printableAscii_range).
  induction printableAscii as [|i l IH]; [reflexivity|].
  specialize (IH (fun j J => R j (or_intror J))).
  simpl in IH |- *. rewrite IH.
  unfold charEntry, fromCharCode.
  rewrite Z.mod_small by (specialize (R i (or_introl eq_refl)); lia).
  reflexivity.
Qed.

(** C8.  With an empty search term and the ASCII range included, the
    listing has one entry per entry of the forward map (the entry's unit and
    id, type "vocabulary") and one per character code 32 .. 126 (the
    character, id = code + 2000, type "ascii"), nothing else: its length is
    the size of the map plus 95; and it is in ascending order of id. *)
Theorem getVocabulary_all (calls : list Call) :
  let self := this (tokenizerAfter calls) in
  let listing := getVocabulary self [] true in
  Z.of_nat (List.length listing)
    = JsMap.size (TokenVisualizer.vocabulary self) + 95 /\
  Permutation listing
    (map tableEntry (JsMap.entries (TokenVisualizer.vocabulary self))
     ++ map charEntry printableAscii) /\
  (forall i, In i printableAscii <-> 32 <= i <= 126) /\
  NoDup printableAscii /\
  StronglySorted leToken listing.
Proof.
  cbv zeta. unfold getVocabulary.
  rewrite vocabularyEntries_all, asciiEntries_all.
  split; [|split; [|split; [|split]]].
  - rewrite (Permutation_length (sortByToken_perm _)).
    rewrite length_app, !length_map. unfold JsMap.size, JsMap.entries.
    change (List.length printableAscii) with 95%nat. lia.
  - apply sortByToken_perm.
  - apply printableAscii_range.
  - unfold printableAscii. apply Finite.Injective_map_NoDup.
    + intros a b H; lia.
    + apply seq_NoDup.
  - apply sortByToken_sorted.
Qed.

(* ===================================================================== *)
(** * C6: statistics *)
(* ===================================================================== *)

Lemma encodeWordTokens_length (self : TokenVisualizer.t) (word : jsstring) :
  word <> [] ->
  (List.length (encodeWordTokens self word) <= List.length word)%nat.
Proof.
  intros N. unfold encodeWordTokens, encodeToAscii.
  destruct (JsMap.get jsstring_eqb (toLowerCase word) _).
  - destruct word; [contradiction | simpl; lia].
  - rewrite length_map. apply arrayFrom_length.
Qed.

(** A unit yields at most as many tokens as it has characters, and units
    are disjoint pieces of the text: encoding never yields more tokens than
    the text has characters. *)
Lemma encodedTokens_length (self : TokenVisualizer.t) (text : jsstring) :
  (List.length (encodedTokens self text) <= List.length text)%nat.
Proof.
  unfold encodedTokens.
  assert (U : Units text (tokenizeWords text))
    by (apply units_of_text).
  induction U as [|run rest us N R E U IH|rest us U IH|c rest us C N U IH];
    cbn [flat_map].
  - simpl; lia.
  - rewrite !length_app.
    pose proof (encodeWordTokens_length self run N). lia.
  - simpl List.length. lia.
  - rewrite length_app.
    assert (List.length (encodeWordTokens self [c]) <= 1)%nat
      by (apply (encodeWordTokens_length self [c]); discriminate).
    simpl List.length. lia.
Qed.







(* ===================================================================== *)
(** * Further properties of unit splitting *)
(* ===================================================================== *)

Lemma isRegular_notSpace (c : Z) : isRegular c = true -> notSpace c = true.
Proof.
  intros R. unfold notSpace. destruct (c =? 32) eqn:E; [|reflexivity].
  apply Z.eqb_eq in E; subst c. discriminate R.
Qed.

(** The units, put end to end, are the text without its spaces; no unit is
    empty. *)
Lemma units_concat (text : jsstring) :
  concat (tokenizeWords text) = filter notSpace text /\
  Forall (fun u => u <> []) (tokenizeWords text).
Proof.
  assert (U : Units text (tokenizeWords text))
    by (apply units_of_text).
  induction U as [|run rest us N R E U [IH1 IH2]|rest us U [IH1 IH2]
                  |c rest us C N U [IH1 IH2]].
  - split; [reflexivity | constructor].
  - split; [|constructor; assumption].
    simpl concat. rewrite filter_app, IH1. f_equal.
    symmetry. clear - R. induction run as [|c run IH]; [reflexivity|].
    simpl in R. apply andb_true_iff in R. destruct R as [R1 R2].
    simpl. rewrite (isRegular_notSpace c R1), IH by exact R2. reflexivity.
  - split; [|exact IH2]. simpl. exact IH1.
  - split; [|constructor; [discriminate | exact IH2]].
    simpl. unfold notSpace at 1. apply Z.eqb_neq in N. rewrite N. simpl.
    rewrite IH1. reflexivity.
Qed.

Lemma tokenizeFrom_split (a : jsstring) (c : Z) (b : jsstring) :
  isRegular c = false ->
  forall cur,
    tokenizeFrom (a ++ c :: b) [] cur =
    tokenizeFrom a [] cur ++ sepUnits c ++ tokenizeWords b.
Proof.
  intros C. induction a as [|x a IH]; intros cur.
  - simpl app. rewrite tokenizeFrom_sep by exact C. reflexivity.
  - destruct (isRegular x) eqn:X.
    + simpl. destruct (isRegular_true x X) as [W P]. rewrite W, P. apply IH.
    + change ((x :: a) ++ c :: b) with (x :: (a ++ c :: b)).
      rewrite !tokenizeFrom_sep by exact X.
      unfold tokenizeWords. rewrite IH. rewrite <- !app_assoc. reflexivity.
Qed.

Lemma tokenizeWords_separator (a : jsstring) (c : Z) (b : jsstring) :
  isRegular c = false ->
  tokenizeWords (a ++ c :: b) =
  tokenizeWords a ++ sepUnits c ++ tokenizeWords b.
Proof.
  intros C. unfold tokenizeWords at 1. apply tokenizeFrom_split. exact C.
Qed.

(** X2.  Splitting and encoding compose at every separator (a whitespace or
    punctuation character [c]): the units of [a ++ c :: b] are those of
    [a], the unit of [c] (none for the space), then those of [b], and the
    tokens of [encodeText] are the tokens of the three parts in that
    order. *)
Theorem encodeText_separator (calls : list Call) (a : jsstring) (c : Z)
        (b : jsstring) :
  isRegular c = false ->
  let w := tokenizerAfter calls in
  tokenizeWords (a ++ c :: b) =
    tokenizeWords a ++ sepUnits c ++ tokenizeWords b /\
  EncodeResult.tokens (fst (encodeText (a ++ c :: b) w)) =
    EncodeResult.tokens (fst (encodeText a w))
    ++ EncodeResult.tokens (fst (encodeText [c] w))
    ++ EncodeResult.tokens (fst (encodeText b w)).
Proof.
  intros C. cbv zeta. split; [apply tokenizeWords_separator; exact C|].
  rewrite !encodeText_tokens. unfold encodedTokens.
  rewrite (tokenizeWords_separator a c b C), !flat_map_app.
  do 2 f_equal. unfold tokenizeWords.
  rewrite (tokenizeFrom_sep c [] [] [] C). simpl.
  rewrite app_nil_r. reflexivity.
Qed.

(** X1.  Splitting loses nothing but spaces and invents nothing: the units, put
    end to end, are the text without its space characters, in order; every
    unit is a non-empty run of regular characters or a single separator
    other than the space. *)
Theorem tokenizeWords_shape (text : jsstring) :
  concat (tokenizeWords text) = filter notSpace text /\
  Forall (fun u => (u <> [] /\ forallb isRegular u = true) \/
                   (exists c, u = [c] /\ isRegular c = false /\ c <> 32))
         (tokenizeWords text).
Proof.
  split; [apply units_concat|].
  assert (U : Units text (tokenizeWords text))
    by (apply units_of_text).
  induction U as [|run rest us N R E U IH|rest us U IH|c rest us C N U IH].
  - constructor.
  - constructor; [left; auto | exact IH].
  - exact IH.
  - constructor; [right; exists c; auto | exact IH].
Qed.

(* ===================================================================== *)
(** * Further properties of encoding and decoding *)
(* ===================================================================== *)

Lemma units_forall (P : Z -> Prop) (text : jsstring) :
  Forall P text -> Forall (Forall P) (tokenizeWords text).
Proof.
  intros H. apply Forall_concat. rewrite (proj1 (units_concat text)).
  apply (incl_Forall (incl_filter notSpace text) H).
Qed.

Lemma arrayFrom_heads (P : Z -> Prop) (s : jsstring) :
  Forall P s -> Forall (fun cp => P (charCodeAt0 cp)) (arrayFrom s).
Proof.
  remember (List.length s) as n eqn:L.
  revert s L; induction n as [n IH] using lt_wf_ind; intros s L H.
  destruct s as [|c [|d rest]].
  - constructor.
  - inversion H; subst. repeat constructor. assumption.
  - rewrite arrayFrom_cons2. inversion H as [|? ? Hc H']; subst.
    destruct (isHighSurrogate c && isLowSurrogate d).
    + constructor; [exact Hc|]. inversion H'; subst.
      apply (IH (List.length rest)); [simpl; lia | reflexivity | assumption].
    + constructor; [exact Hc|].
      apply (IH (List.length (d :: rest)));
        [simpl; lia | reflexivity | assumption].
Qed.

(** Without high surrogates every code point is one code unit. *)
Lemma arrayFrom_units (s : jsstring) :
  Forall (fun c => isHighSurrogate c = false) s ->
  arrayFrom s = map (fun c => [c]) s.
Proof.
  induction s as [|c s IH]; intros H; [reflexivity|].
  inversion H as [|? ? Hc H']; subst.
  destruct s as [|d s]; [reflexivity|].
  rewrite arrayFrom_cons2, Hc. simpl andb. cbv iota.
  rewrite IH by exact H'. reflexivity.
Qed.

Lemma vocabulary_id_range (calls : list Call) (u : jsstring) (id : Z) :
  JsMap.get jsstring_eqb u
    (TokenVisualizer.vocabulary (this (tokenizerAfter calls))) = Some id ->
  0 <= id < 208.
Proof.
  intros H. apply vocabulary_get in H. destruct H as (P & Q & _).
  assert (Z.to_nat id < List.length seedUnits)%nat
    by (apply nth_error_Some; rewrite Q; discriminate).
  rewrite seedUnits_length in *. lia.
Qed.

(** X3.  Every token [encodeText] emits for a well-formed text is either an id
    of the vocabulary (between 0 and 207, present in the inverse map) or a
    fallback id between 2000 and 67535 (absent from the inverse map): no
    token is negative and none falls in the gap 208 .. 1999. *)
Theorem encodeText_token_range (calls : list Call) (text : jsstring) :
  Forall isCodeUnit text ->
  let self := this (tokenizerAfter calls) in
  Forall (fun token =>
            (0 <= token < 208 /\
             JsMap.has Z.eqb token (TokenVisualizer.reverseVocabulary self) = true)
            \/
            (2000 <= token < 67536 /\
             JsMap.has Z.eqb token (TokenVisualizer.reverseVocabulary self) = false))
         (EncodeResult.tokens (fst (encodeText text (tokenizerAfter calls)))).
Proof.
  intros W. cbv zeta. rewrite encodeText_tokens. unfold encodedTokens.
  apply Forall_flat_map.
  pose proof (units_forall isCodeUnit text W) as U.
  induction U as [|u us Hu U IH]; constructor; [|exact IH].
  unfold encodeWordTokens, encodeToAscii. rewrite tokenizer_asciiOffset.
  destruct (JsMap.get jsstring_eqb (toLowerCase u) _) as [id|] eqn:G.
  - constructor; [|constructor]. left.
    split; [apply (vocabulary_id_range calls _ _ G)|].
    apply has_true_iff. exists (toLowerCase u).
    apply vocabulary_roundtrip; exact G.
  - apply Forall_map.
    pose proof (arrayFrom_heads isCodeUnit u Hu) as A.
    induction A as [|cp cps [A0 A1] A IHA]; constructor; [|exact IHA].
    right. split; [lia|].
    apply has_false_iff. apply reverseVocabulary_miss. lia.
Qed.

(** Decoding the tokens of one unit. *)
Lemma decodedText_unit (calls : list Call) (u : jsstring) :
  Forall isCodeUnit u ->
  decodedText (this (tokenizerAfter calls))
              (encodeWordTokens (this (tokenizerAfter calls)) u)
  = decodedUnit (this (tokenizerAfter calls)) u.
Proof.
  intros Hu. unfold encodeWordTokens, decodedUnit, encodeToAscii.
  rewrite tokenizer_asciiOffset.
  destruct (JsMap.get jsstring_eqb (toLowerCase u) _) as [id|] eqn:G.
  - unfold decodedText; simpl. unfold decodeTokenStep.
    rewrite (vocabulary_roundtrip calls _ _ G). simpl. apply app_nil_r.
  - pose proof (arrayFrom_heads isCodeUnit u Hu) as A.
    induction A as [|cp cps [A0 A1] A IHA]; [reflexivity|].
    simpl map. unfold decodedText in *. cbn [flat_map].
    rewrite IHA. unfold decodeTokenStep at 1.
    rewrite reverseVocabulary_miss by lia. rewrite tokenizer_asciiOffset.
    replace (2000 <=? charCodeAt0 cp + 2000) with true
      by (symmetry; apply Z.leb_le; lia).
    simpl. unfold fromCharCode.
    replace (charCodeAt0 cp + 2000 - 2000) with (charCodeAt0 cp) by lia.
    rewrite Z.mod_small by lia. reflexivity.
Qed.

(** Decoding an encoding on the same instance. *)
Lemma decode_after_encode (calls : list Call) (text : jsstring) :
  let enc := encodeText text (tokenizerAfter calls) in
  DecodeResult.text
    (fst (decodeTokens (EncodeResult.tokens (fst enc)) (snd enc)))
  = decodedText (this (tokenizerAfter calls))
                (encodedTokens (this (tokenizerAfter calls)) text).
Proof.
  cbv zeta.
  change (snd (encodeText text (tokenizerAfter calls)))
    with (exec (tokenizerAfter calls) (CallEncodeText text)).
  rewrite <- tokenizerAfter_snoc.
  rewrite decodeTokens_text, encodeText_tokens.
  assert (T : sameTables (this (tokenizerAfter (calls ++ [CallEncodeText text])))
                         (this (tokenizerAfter calls)))
    by (rewrite tokenizerAfter_snoc; apply exec_tables).
  rewrite (decodedText_tables _ _ _ T). reflexivity.
Qed.

(** X4.  What encoding followed by decoding gives, for every well-formed text:
    unit by unit, the lower-cased unit when that is a vocabulary entry, and
    otherwise the first code unit of each code point of the unit; nothing
    stands for the spaces. *)
Theorem decode_encode (calls : list Call) (text : jsstring) :
  Forall isCodeUnit text ->
  let enc := encodeText text (tokenizerAfter calls) in
  DecodeResult.text
    (fst (decodeTokens (EncodeResult.tokens (fst enc)) (snd enc)))
  = flat_map (decodedUnit (this (tokenizerAfter calls))) (tokenizeWords text).
Proof.
  intros W. cbv zeta. rewrite (decode_after_encode calls text).
  unfold encodedTokens.
  pose proof (units_forall isCodeUnit text W) as U.
  induction U as [|u us Hu U IH]; [reflexivity|].
  cbn [flat_map]. rewrite decodedText_app, IH.
  rewrite (decodedText_unit calls u Hu). reflexivity.
Qed.

(** X5.  The round trip: when the text has no high surrogate, and every unit
    whose lower-cased form is a vocabulary entry is already in that form,
    decoding the encoding gives the text back without its spaces (so the
    text itself when it has no space). *)
Theorem decode_encode_roundtrip (calls : list Call) (text : jsstring) :
  Forall isCodeUnit text ->
  Forall (fun c => isHighSurrogate c = false) text ->
  (forall u, In u (tokenizeWords text) ->
             JsMap.has jsstring_eqb (toLowerCase u)
               (TokenVisualizer.vocabulary (this (tokenizerAfter calls))) = true ->
             toLowerCase u = u) ->
  let enc := encodeText text (tokenizerAfter calls) in
  DecodeResult.text
    (fst (decodeTokens (EncodeResult.tokens (fst enc)) (snd enc)))
  = filter notSpace text.
Proof.
  intros W S L. cbv zeta. rewrite (decode_after_encode calls text).
  rewrite <- (proj1 (units_concat text)). unfold encodedTokens.
  pose proof (units_forall _ text W) as UW.
  pose proof (units_forall _ text S) as U.
  induction U as [|u us Hu U IH]; [reflexivity|].
  inversion UW as [|? ? Wu UW']; subst.
  cbn [flat_map concat]. rewrite decodedText_app.
  rewrite IH by (try (intros v V; apply L; right; exact V); assumption).
  f_equal. rewrite (decodedText_unit calls u Wu). unfold decodedUnit.
  destruct (JsMap.get jsstring_eqb (toLowerCase u) _) as [id|] eqn:G.
  - apply L; [left; reflexivity|]. apply has_true_iff. eauto.
  - rewrite (arrayFrom_units u Hu), map_map. simpl. apply map_id.
Qed.


Lemma surrogate_isRegular (c : Z) :
  55296 <= c <= 57343 -> isRegular c = true.
Proof.
  intros H. unfold isRegular, isWhitespace, isPunctuation, punctuationClass.
  cbn [existsb].
  repeat match goal with
         | |- context [?a =? ?b] =>
             replace (a =? b) with false by (symmetry; apply Z.eqb_neq; lia)
         end.
  replace (c <=? 13) with false by (symmetry; apply Z.leb_gt; lia).
  replace (c <=? 8202) with false by (symmetry; apply Z.leb_gt; lia).
  rewrite !andb_false_r. reflexivity.
Qed.

(** X6.  A surrogate pair (one character outside the basic plane, two code
    units) that is not a vocabulary entry is encoded as ONE token, the high
    surrogate plus 2000, and decodes to the high surrogate alone: the low
    surrogate is lost. *)
Theorem encode_surrogate_pair (calls : list Call) (c d : Z) :
  isHighSurrogate c = true -> isLowSurrogate d = true ->
  JsMap.has jsstring_eqb (toLowerCase [c; d])
    (TokenVisualizer.vocabulary (this (tokenizerAfter calls))) = false ->
  let enc := encodeText [c; d] (tokenizerAfter calls) in
  EncodeResult.tokens (fst enc) = [c + 2000] /\
  DecodeResult.text
    (fst (decodeTokens (EncodeResult.tokens (fst enc)) (snd enc))) = [c].
Proof.
  intros Hc Hd H. cbv zeta.
  assert (Rc : 55296 <= c <= 56319).
  { unfold isHighSurrogate in Hc. apply andb_true_iff in Hc.
    rewrite !Z.leb_le in Hc. exact Hc. }
  assert (Rd : 56320 <= d <= 57343).
  { unfold isLowSurrogate in Hd. apply andb_true_iff in Hd.
    rewrite !Z.leb_le in Hd. exact Hd. }
  assert (T : tokenizeWords [c; d] = [[c; d]]).
  { change [c; d] with ([c; d] ++ []) at 1.
    rewrite tokenizeWords_run; [reflexivity | discriminate | | exact I].
    simpl. rewrite !surrogate_isRegular by lia. reflexivity. }
  assert (E : encodedTokens (this (tokenizerAfter calls)) [c; d] = [c + 2000]).
  { unfold encodedTokens. rewrite T. cbn [flat_map].
    unfold encodeWordTokens. apply has_false_iff in H. rewrite H.
    unfold encodeToAscii. rewrite arrayFrom_cons2, Hc, Hd.
    rewrite tokenizer_asciiOffset. reflexivity. }
  split; [rewrite encodeText_tokens; exact E|].
  rewrite (decode_after_encode calls [c; d]), E.
  unfold decodedText. cbn [flat_map]. unfold decodeTokenStep.
  rewrite reverseVocabulary_miss by lia. rewrite tokenizer_asciiOffset.
  replace (2000 <=? c + 2000) with true by (symmetry; apply Z.leb_le; lia).
  simpl. unfold fromCharCode.
  replace (c + 2000 - 2000) with c by lia.
  rewrite Z.mod_small by lia. reflexivity.
Qed.


Lemma decodeStepsFrom_shift (self : TokenVisualizer.t) (b : list Z) (d : Z) :
  forall k,
    decodeStepsFrom self b (k + d) = map (renumber d) (decodeStepsFrom self b k).
Proof.
  induction b as [|t b IH]; intros k; [reflexivity|].
  simpl. replace (k + d + 1) with (k + 1 + d) by lia. rewrite IH.
  f_equal. unfold decodeTokenStep, renumber.
  destruct (JsMap.get Z.eqb t _); [|destruct (_ <=? t)]; simpl;
    f_equal; lia.
Qed.

Lemma decodeStepsFrom_app (self : TokenVisualizer.t) (a b : list Z) :
  forall k,
    decodeStepsFrom self (a ++ b) k =
    decodeStepsFrom self a k
    ++ decodeStepsFrom self b (k + Z.of_nat (List.length a)).
Proof.
  induction a as [|t a IH]; intros k.
  - simpl. rewrite Z.add_0_r. reflexivity.
  - cbn [app decodeStepsFrom List.length]. rewrite IH.
    replace (k + 1 + Z.of_nat (List.length a))
      with (k + Z.of_nat (S (List.length a))) by lia.
    reflexivity.
Qed.

(** X7.  Decoding composes: the text of a concatenation is the concatenation of
    the texts, and its steps are the steps of the first part followed by
    those of the second with their numbers moved by the length of the
    first. *)
Theorem decodeTokens_app (calls : list Call) (a b : list Z) :
  let w := tokenizerAfter calls in
  let steps tokens :=
    decArrayAt (heap (snd (decodeTokens tokens w)))
               (DecodeResult.steps (fst (decodeTokens tokens w))) in
  DecodeResult.text (fst (decodeTokens (a ++ b) w)) =
    DecodeResult.text (fst (decodeTokens a w))
    ++ DecodeResult.text (fst (decodeTokens b w)) /\
  steps (a ++ b) =
    steps a ++ map (renumber (Z.of_nat (List.length a))) (steps b).
Proof.
  cbv zeta. rewrite !decodeTokens_text, !decodeTokens_steps, decodedText_app.
  split; [reflexivity|].
  rewrite decodeStepsFrom_app, decodeStepsFrom_shift. reflexivity.
Qed.

Lemma map_stepNumbers (index : Z) (n : nat) :
  stepNumbers index (S n) = (index + 1) :: stepNumbers (index + 1) n.
Proof.
  unfold stepNumbers. cbn [seq map]. f_equal; [lia|].
  rewrite <- seq_shift, map_map. apply map_ext. intros k. lia.
Qed.

(** X8.  The trace of an encoding agrees with its result: there is one step
    per unit, numbered 1, 2, ...; the inputs of the steps are the units in
    order; and the outputs of the steps, put end to end, are the tokens. *)
Theorem encodeText_trace (calls : list Call) (text : jsstring) :
  let r := encodeText text (tokenizerAfter calls) in
  let steps := encArrayAt (heap (snd r)) (EncodeResult.steps (fst r)) in
  map EncStep.input steps = tokenizeWords text /\
  map EncStep.step steps = stepNumbers 0 (List.length (tokenizeWords text)) /\
  flat_map (fun s => outputTokens (EncStep.output s)) steps
  = EncodeResult.tokens (fst r).
Proof.
  cbv zeta. rewrite encodeText_steps, encodeText_tokens. unfold encodedTokens.
  generalize 0 as i.
  induction (tokenizeWords text) as [|u us IH]; intros i.
  - repeat split.
  - destruct (IH (i + 1)) as (A & B & C).
    cbn [encodeStepsFrom map flat_map List.length].
    rewrite A, B, C, map_stepNumbers.
    unfold encodeWordStep, encodeWordTokens.
    destruct (JsMap.get jsstring_eqb (toLowerCase u) _); repeat split.
Qed.

(** X9.  The trace of a decoding agrees with its result: one step per token,
    numbered 1, 2, ...; the inputs are the tokens in order; the outputs, put
    end to end, are the decoded text. *)
Theorem decodeTokens_trace (calls : list Call) (tokens : list Z) :
  let r := decodeTokens tokens (tokenizerAfter calls) in
  let steps := decArrayAt (heap (snd r)) (DecodeResult.steps (fst r)) in
  map DecStep.input steps = tokens /\
  map DecStep.step steps = stepNumbers 0 (List.length tokens) /\
  flat_map DecStep.output steps = DecodeResult.text (fst r).
Proof.
  cbv zeta. rewrite decodeTokens_steps, decodeTokens_text.
  set (self := this (tokenizerAfter calls)).
  assert (G : forall i,
    map DecStep.input (decodeStepsFrom self tokens i) = tokens /\
    map DecStep.step (decodeStepsFrom self tokens i)
      = stepNumbers i (List.length tokens) /\
    flat_map DecStep.output (decodeStepsFrom self tokens i)
      = decodedText self tokens); [|apply G].
  unfold decodedText.
  induction tokens as [|t tokens IH]; intros i.
  - repeat split.
  - destruct (IH (i + 1)) as (A & B & C).
    cbn [decodeStepsFrom map flat_map List.length].
    rewrite A, B, C, map_stepNumbers.
    unfold decodeTokenStep.
    destruct (JsMap.get Z.eqb t _); [|destruct (_ <=? t)]; repeat split.
Qed.

Lemma specialTokens_hasUpper : forallb hasUpper specialTokens = true.
Proof. vm_compute; reflexivity. Qed.

(** X10.  The special markers cannot be produced from text: when the host's
    [toLowerCase] returns no upper-case ASCII letter, no token of an
    encoding is one of the ids 0 .. 9, and every vocabulary id that is
    emitted is the last position at which its unit was seeded (an earlier
    position of a repeated word is never emitted). *)
Theorem encodeText_no_special_ids (calls : list Call) (text : jsstring) :
  lowerHasNoUpper toLowerCase ->
  Forall isCodeUnit text ->
  Forall (fun token =>
            10 <= token /\
            (token < 2000 -> exists u, lastAt seedUnits u token))
         (EncodeResult.tokens (fst (encodeText text (tokenizerAfter calls)))).
Proof.
  intros N W. rewrite encodeText_tokens. unfold encodedTokens.
  apply Forall_flat_map.
  pose proof (units_forall isCodeUnit text W) as U.
  induction U as [|u us Hu U IH]; constructor; [|exact IH].
  unfold encodeWordTokens, encodeToAscii. rewrite tokenizer_asciiOffset.
  destruct (JsMap.get jsstring_eqb (toLowerCase u) _) as [id|] eqn:G.
  - constructor; [|constructor].
    pose proof (proj1 (vocabulary_get calls _ _) G) as L.
    split; [|intros _; eauto].
    destruct L as (P & Q & _).
    destruct (Z_lt_le_dec id 10) as [S|S]; [exfalso | exact S].
    unfold seedUnits in Q.
    rewrite nth_error_app1 in Q by (simpl; lia).
    pose proof specialTokens_hasUpper as H.
    rewrite forallb_forall in H.
    specialize (H _ (nth_error_In _ _ Q)).
    unfold hasUpper in H. apply existsb_exists in H.
    destruct H as (c & Hc & Hr).
    apply andb_true_iff in Hr. rewrite !Z.leb_le in Hr.
    exact (N _ _ Hc Hr).
  - apply Forall_map.
    pose proof (arrayFrom_heads isCodeUnit u Hu) as A.
    induction A as [|cp cps [A0 A1] A IHA]; constructor; [|exact IHA].
    split; [lia | intros; lia].
Qed.

(** X11.  The ids are laid out in three adjacent blocks: 0 .. 9 the special
    markers, 10 .. 172 the lower-cased words, 173 .. 207 the punctuation
    and whitespace characters, each in seed order; no other id is bound
    (in particular none of 208 .. 1999). *)
Theorem reverseVocabulary_blocks (calls : list Call) :
  let R := TokenVisualizer.reverseVocabulary (this (tokenizerAfter calls)) in
  (forall i, (i < 10)%nat ->
             JsMap.get Z.eqb (Z.of_nat i) R = nth_error specialTokens i) /\
  (forall i, (i < 163)%nat ->
             JsMap.get Z.eqb (10 + Z.of_nat i) R
             = option_map toLowerCase (nth_error commonWords i)) /\
  (forall i, (i < 35)%nat ->
             JsMap.get Z.eqb (173 + Z.of_nat i) R = nth_error punctuation i) /\
  (forall id, id < 0 \/ 208 <= id -> JsMap.get Z.eqb id R = None).
Proof.
  cbv zeta.
  assert (G : forall i, (i < 208)%nat ->
     JsMap.get Z.eqb (Z.of_nat i)
       (TokenVisualizer.reverseVocabulary (this (tokenizerAfter calls)))
     = nth_error seedUnits i).
  { intros i H. rewrite reverseVocabulary_get, Nat2Z.id.
    replace ((0 <=? Z.of_nat i) && (Z.of_nat i <? 208)) with true
      by (symmetry; apply range_test; lia).
    reflexivity. }
  split; [|split; [|split]].
  - intros i H. rewrite G by lia. unfold seedUnits.
    rewrite nth_error_app1 by (simpl; lia). reflexivity.
  - intros i H. replace (10 + Z.of_nat i) with (Z.of_nat (10 + i)) by lia.
    rewrite G by lia. unfold seedUnits.
    rewrite nth_error_app2 by (simpl; lia).
    replace (10 + i - List.length specialTokens)%nat with i by (simpl; lia).
    rewrite nth_error_app1 by (rewrite length_map; simpl; lia).
    apply nth_error_map.
  - intros i H. replace (173 + Z.of_nat i) with (Z.of_nat (173 + i)) by lia.
    rewrite G by lia. unfold seedUnits.
    rewrite nth_error_app2 by (simpl; lia).
    rewrite nth_error_app2 by (rewrite length_map; simpl; lia).
    rewrite length_map. f_equal. simpl. lia.
  - intros id H. rewrite reverseVocabulary_get.
    destruct ((0 <=? id) && (id <? 208)) eqn:E; [|reflexivity].
    apply range_test in E. lia.
Qed.


(* ===================================================================== *)
(** * The step arrays kept in the instance *)
(* ===================================================================== *)

Lemma lastEncodedText_snoc (calls : list Call) (c : Call) :
  lastEncodedText (calls ++ [c]) = noteEncoded (lastEncodedText calls) c.
Proof. unfold lastEncodedText; rewrite fold_left_app; reflexivity. Qed.

Lemma lastDecodedTokens_snoc (calls : list Call) (c : Call) :
  lastDecodedTokens (calls ++ [c]) = noteDecoded (lastDecodedTokens calls) c.
Proof. unfold lastDecodedTokens; rewrite fold_left_app; reflexivity. Qed.

(** X12.  The instance keeps aliases of the step arrays it returned:
    [this.encodingSteps] always holds the steps of the most recent
    [encodeText] or [getEncodingStats] on a non-empty text (so
    [getEncodingStats] replaces it too, and encoding the empty text leaves
    the previous steps in place); [this.decodingSteps] holds the steps of
    the most recent [decodeTokens] on a non-empty list; both are empty
    before any such call. *)
Theorem steps_fields (calls : list Call) :
  let w := tokenizerAfter calls in
  encArrayAt (heap w) (TokenVisualizer.encodingSteps (this w)) =
    match lastEncodedText calls with
    | Some text => encodeStepsFrom (this w) (tokenizeWords text) 0
    | None => []
    end /\
  decArrayAt (heap w) (TokenVisualizer.decodingSteps (this w)) =
    match lastDecodedTokens calls with
    | Some tokens => decodeStepsFrom (this w) tokens 0
    | None => []
    end.
Proof.
  cbv zeta.
  set (self0 := this newTokenVisualizer).
  assert (G :
    (TokenVisualizer.encodingSteps (this (tokenizerAfter calls))
     < List.length (heap (tokenizerAfter calls)))%nat /\
    (TokenVisualizer.decodingSteps (this (tokenizerAfter calls))
     < List.length (heap (tokenizerAfter calls)))%nat /\
    encArrayAt (heap (tokenizerAfter calls))
               (TokenVisualizer.encodingSteps (this (tokenizerAfter calls))) =
      match lastEncodedText calls with
      | Some text => encodeStepsFrom self0 (tokenizeWords text) 0
      | None => []
      end /\
    decArrayAt (heap (tokenizerAfter calls))
               (TokenVisualizer.decodingSteps (this (tokenizerAfter calls))) =
      match lastDecodedTokens calls with
      | Some tokens => decodeStepsFrom self0 tokens 0
      | None => []
      end).
  { induction calls as [|c calls IH] using rev_ind.
    - unfold tokenizerAfter, newTokenVisualizer.
      cbn [fold_left heap this TokenVisualizer.encodingSteps
           TokenVisualizer.decodingSteps List.length].
      repeat split; lia.
    - destruct IH as (LE & LD & HE & HD).
      rewrite tokenizerAfter_snoc, lastEncodedText_snoc, lastDecodedTokens_snoc.
      pose proof (tokenizerAfter_tables calls) as T. fold self0 in T.
      set (w := tokenizerAfter calls) in *.
      assert (Enc : forall text,
        let w' := snd (encodeText text w) in
        (TokenVisualizer.encodingSteps (this w') < List.length (heap w'))%nat /\
        (TokenVisualizer.decodingSteps (this w') < List.length (heap w'))%nat /\
        encArrayAt (heap w') (TokenVisualizer.encodingSteps (this w')) =
          match (if nonEmpty text then Some text else lastEncodedText calls) with
          | Some text => encodeStepsFrom self0 (tokenizeWords text) 0
          | None => []
          end /\
        decArrayAt (heap w') (TokenVisualizer.decodingSteps (this w')) =
          match lastDecodedTokens calls with
          | Some tokens => decodeStepsFrom self0 tokens 0
          | None => []
          end).
      { intros text. cbv zeta. rewrite encodeText_run.
        destruct (nonEmpty text);
          cbn [snd heap this withEncodingSteps TokenVisualizer.encodingSteps
               TokenVisualizer.decodingSteps];
          rewrite length_app; cbn [List.length].
        - rewrite encArrayAt_fresh, decArrayAt_grow by exact LD.
          repeat split; try lia; try exact HD.
          apply encodeStepsFrom_tables; exact T.
        - rewrite encArrayAt_grow by exact LE.
          rewrite decArrayAt_grow by exact LD.
          repeat split; try lia; assumption. }
      destruct c as [text|tokens|text|term incl];
        cbn [exec noteEncoded noteDecoded].
      + apply Enc.
      + rewrite decodeTokens_run.
        destruct tokens as [|t tokens];
          cbn [snd heap this withDecodingSteps TokenVisualizer.encodingSteps
               TokenVisualizer.decodingSteps];
          rewrite length_app; cbn [List.length].
        * rewrite encArrayAt_grow by exact LE.
          rewrite decArrayAt_grow by exact LD.
          repeat split; try lia; assumption.
        * rewrite decArrayAt_fresh, encArrayAt_grow by exact LE.
          repeat split; try lia; try exact HE.
          apply decodeStepsFrom_tables; exact T.
      + rewrite getEncodingStats_run. cbn [snd]. apply Enc.
      + repeat split; assumption. }
  destruct G as (_ & _ & HE & HD).
  pose proof (tokenizerAfter_tables calls) as T. fold self0 in T.
  rewrite HE, HD. split.
  - destruct (lastEncodedText calls); [|reflexivity].
    symmetry; apply encodeStepsFrom_tables; exact T.
  - destruct (lastDecodedTokens calls); [|reflexivity].
    symmetry; apply decodeStepsFrom_tables; exact T.
Qed.


(* ===================================================================== *)
(** * The caller's view of a token (ui.js) *)
(* ===================================================================== *)

Lemma tokenText_tables (s1 s2 : TokenVisualizer.t) (token : Z) :
  sameTables s1 s2 -> tokenText s1 token = tokenText s2 token.
Proof.
  intros (_ & B & C). unfold tokenText. rewrite B, C. reflexivity.
Qed.

Lemma tokenText_unit (calls : list Call) (u : jsstring) :
  Forall isCodeUnit u ->
  flat_map (tokenText (this (tokenizerAfter calls)))
           (encodeWordTokens (this (tokenizerAfter calls)) u)
  = decodedUnit (this (tokenizerAfter calls)) u.
Proof.
  intros Hu. unfold encodeWordTokens, decodedUnit, encodeToAscii.
  rewrite tokenizer_asciiOffset.
  destruct (JsMap.get jsstring_eqb (toLowerCase u) _) as [id|] eqn:G.
  - simpl. unfold tokenText.
    rewrite (vocabulary_roundtrip calls _ _ G). apply app_nil_r.
  - pose proof (arrayFrom_heads isCodeUnit u Hu) as A.
    induction A as [|cp cps [A0 A1] A IHA]; [reflexivity|].
    cbn [map flat_map]. rewrite IHA. unfold tokenText at 1.
    rewrite reverseVocabulary_miss by lia. rewrite tokenizer_asciiOffset.
    unfold fromCharCode.
    replace (charCodeAt0 cp + 2000 - 2000) with (charCodeAt0 cp) by lia.
    rewrite Z.mod_small by lia. reflexivity.
Qed.

(** X13.  The text [updateVisualization] shows for each token of an encoding
    (the inverse-map entry, else the character of code [token - 2000]) is
    the text [decodeTokens] gives that token: put end to end, the shown
    texts are the decoded text.  The two differ only on tokens an encoding
    never contains: for a token below 2000 that is not a vocabulary id the
    view computes a character from [token - 2000] where [decodeTokens]
    answers "<UNK>". *)
Theorem tokenText_of_encoding (calls : list Call) (text : jsstring) :
  Forall isCodeUnit text ->
  let enc := encodeText text (tokenizerAfter calls) in
  flat_map (tokenText (this (snd enc))) (EncodeResult.tokens (fst enc))
  = DecodeResult.text
      (fst (decodeTokens (EncodeResult.tokens (fst enc)) (snd enc))) /\
  (forall token,
     JsMap.has Z.eqb token
       (TokenVisualizer.reverseVocabulary (this (snd enc))) = false ->
     token < 2000 ->
     tokenText (this (snd enc)) token = [(token - 2000) mod 65536] /\
     DecodeResult.text (fst (decodeTokens [token] (snd enc))) = str "<UNK>").
Proof.
  intros W. cbv zeta.
  assert (T : sameTables (this (snd (encodeText text (tokenizerAfter calls))))
                         (this (tokenizerAfter calls))).
  { change (snd (encodeText text (tokenizerAfter calls)))
      with (exec (tokenizerAfter calls) (CallEncodeText text)).
    apply exec_tables. }
  split.
  - rewrite (decode_after_encode calls text), encodeText_tokens.
    unfold encodedTokens.
    pose proof (units_forall isCodeUnit text W) as U.
    induction U as [|u us Hu U IH]; [reflexivity|].
    cbn [flat_map]. rewrite flat_map_app, decodedText_app, IH. f_equal.
    rewrite (decodedText_unit calls u Hu).
    rewrite <- (tokenText_unit calls u Hu).
    apply flat_map_ext. intros t. apply tokenText_tables; exact T.
  - intros token H L. apply has_false_iff in H. split.
    + unfold tokenText. rewrite H. destruct T as (_ & _ & C).
      rewrite C, tokenizer_asciiOffset. reflexivity.
    + rewrite decodeTokens_text. unfold decodedText, decodeTokenStep.
      cbn [flat_map]. rewrite H. destruct T as (_ & _ & C).
      rewrite C, tokenizer_asciiOffset.
      replace (2000 <=? token) with false by (symmetry; apply Z.leb_gt; lia).
      reflexivity.
Qed.

(* ===================================================================== *)
(** * Further properties of the vocabulary listing *)
(* ===================================================================== *)

Lemma keysDistinct_In_get {K V : Type} (eqb : K -> K -> bool)
      (eqb_ok : forall a b, eqb a b = true <-> a = b)
      (m : JsMap.t K V) (k : K) (v : V) :
  keysDistinct m -> In (k, v) m -> JsMap.get eqb k m = Some v.
Proof.
  unfold keysDistinct. induction m as [|[k' v'] m IH]; intros D H;
    [contradiction|].
  simpl in D. inversion D as [|? ? N D']; subst. simpl.
  destruct H as [E|H].
  - injection E as -> ->. rewrite (eqb_same eqb eqb_ok). reflexivity.
  - assert (k <> k').
    { intros ->. apply N. apply in_map_iff. exists (k', v); auto. }
    rewrite (eqb_diff eqb eqb_ok) by assumption. apply IH; assumption.
Qed.

Lemma fold_addEntry_keysDistinct (units : list jsstring) :
  keysDistinct (vsVocabulary (fold_left addEntry units emptyVocabState)).
Proof.
  induction units as [|u units IH] using rev_ind.
  - constructor.
  - rewrite fold_left_app. simpl.
    apply (set_keysDistinct jsstring_eqb jsstring_eqb_eq). exact IH.
Qed.

(** An entry of the forward map is what [get] finds. *)
Lemma vocabulary_entry_get (calls : list Call) (u : jsstring) (id : Z) :
  In (u, id)
     (JsMap.entries (TokenVisualizer.vocabulary (this (tokenizerAfter calls)))) ->
  JsMap.get jsstring_eqb u
    (TokenVisualizer.vocabulary (this (tokenizerAfter calls))) = Some id.
Proof.
  intros H. apply (keysDistinct_In_get jsstring_eqb jsstring_eqb_eq).
  - rewrite tokenizer_vocabulary. apply fold_addEntry_keysDistinct.
  - exact H.
Qed.

Lemma last_positions_distinct (l : list (jsstring * Z)) :
  NoDup (map fst l) ->
  (forall u id, In (u, id) l -> lastAt seedUnits u id) ->
  NoDup (map snd l).
Proof.
  induction l as [|[u id] l IH]; intros D L; [constructor|].
  simpl in D. inversion D as [|? ? N D']; subst. simpl. constructor.
  - intros H. apply in_map_iff in H. destruct H as ([u' id'] & E & H).
    simpl in E; subst id'.
    destruct (L u id (or_introl eq_refl)) as (_ & Q & _).
    destruct (L u' id (or_intror H)) as (_ & Q' & _).
    rewrite Q in Q'. injection Q' as <-.
    apply N. apply in_map_iff. exists (u, id); auto.
  - apply IH; [exact D'|]. intros u' id' H. apply L. right; exact H.
Qed.

(** No id occurs twice among the entries of the forward map. *)
Lemma vocabulary_ids_distinct (calls : list Call) :
  NoDup (map snd (JsMap.entries
                    (TokenVisualizer.vocabulary (this (tokenizerAfter calls))))).
Proof.
  apply last_positions_distinct.
  - unfold JsMap.entries. rewrite tokenizer_vocabulary.
    apply fold_addEntry_keysDistinct.
  - intros u id H. apply (vocabulary_get calls).
    apply vocabulary_entry_get; exact H.
Qed.

Lemma vocabularyEntries_filter (self : TokenVisualizer.t) (term : jsstring) :
  vocabularyEntries self term =
  map tableEntry
      (filter (matchesWord term)
              (JsMap.entries (TokenVisualizer.vocabulary self))).
Proof.
  unfold vocabularyEntries, JsMap.entries.
  generalize (TokenVisualizer.vocabulary self) as l.
  induction l as [|[word id] l IH]; [reflexivity|].
  cbn [flat_map filter]. rewrite IH. unfold matchesWord at 2. cbn [fst].
  destruct (negb (nonEmpty term) || includes (toLowerCase word) (toLowerCase term));
    reflexivity.
Qed.

Lemma asciiEntries_filter (self : TokenVisualizer.t) (term : jsstring) :
  asciiEntries self term =
  map (fun i => {| VocabEntry.character := fromCharCode i;
                   VocabEntry.token := i + TokenVisualizer.asciiOffset self;
                   VocabEntry.type := asciiType |})
      (filter (matchesChar self term) printableAscii).
Proof.
  unfold asciiEntries.
  induction printableAscii as [|i l IH]; [reflexivity|].
  cbn [flat_map filter]. rewrite IH. unfold matchesChar at 2.
  destruct (negb (nonEmpty term) || includes (fromCharCode i) term
            || includes (numberToString (i + TokenVisualizer.asciiOffset self)) term);
    reflexivity.
Qed.

(** Dropping entries from a listing keeps its ids distinct. *)
Lemma kept_ids_distinct {E : Type} (idOf : E -> Z) (keep : E -> bool)
      (entries : list E) :
  NoDup (map idOf entries) -> NoDup (map idOf (filter keep entries)).
Proof.
  induction entries as [|e entries IH]; simpl; intros D; [exact D|].
  apply NoDup_cons_iff in D. destruct D as [Fresh D].
  specialize (IH D). destruct (keep e); simpl; [|exact IH].
  apply NoDup_cons_iff. split; [|exact IH].
  rewrite in_map_iff. intros (e' & Same & Kept).
  apply Fresh. rewrite in_map_iff. exists e'.
  apply filter_In in Kept. tauto.
Qed.

Lemma strictly_sorted (l : list VocabEntry.t) :
  StronglySorted leToken l -> NoDup (map VocabEntry.token l) ->
  StronglySorted ltToken l.
Proof.
  induction 1 as [|x l S IH F]; intros D; constructor.
  - apply IH. inversion D; assumption.
  - inversion D as [|? ? N D']; subst.
    rewrite Forall_forall in *. intros y Y.
    specialize (F y Y). unfold leToken, ltToken in *.
    assert (VocabEntry.token x <> VocabEntry.token y).
    { intros E. apply N. rewrite E. apply in_map; exact Y. }
    lia.
Qed.

(** The pre-sort list of [getVocabulary]. *)
Lemma listing_tokens_distinct (calls : list Call) (term : jsstring)
      (incl : bool) :
  let self := this (tokenizerAfter calls) in
  NoDup (map VocabEntry.token
             (vocabularyEntries self term
              ++ (if incl then asciiEntries self term else []))).
Proof.
  cbv zeta. rewrite vocabularyEntries_filter, map_app, map_map.
  assert (DV : NoDup (map (fun e => VocabEntry.token (tableEntry e))
                          (filter (matchesWord term)
                             (JsMap.entries
                                (TokenVisualizer.vocabulary
                                   (this (tokenizerAfter calls))))))).
  { apply (kept_ids_distinct snd). apply vocabulary_ids_distinct. }
  destruct incl; [|rewrite app_nil_r; exact DV].
  rewrite asciiEntries_filter, map_map. cbn [VocabEntry.token].
  rewrite tokenizer_asciiOffset.
  apply NoDup_app; [exact DV | |].
  - apply kept_ids_distinct. unfold printableAscii. rewrite map_map.
    apply Finite.Injective_map_NoDup; [intros a b H; lia | apply seq_NoDup].
  - intros t Hv Ha.
    apply in_map_iff in Hv. destruct Hv as ([u id] & E & Hv).
    apply filter_In in Hv. destruct Hv as [Hv _].
    apply vocabulary_entry_get, vocabulary_id_range in Hv.
    apply in_map_iff in Ha. destruct Ha as (i & E' & Ha).
    apply filter_In in Ha. destruct Ha as [Ha _].
    apply printableAscii_range in Ha. simpl in E. lia.
Qed.

(** X14.  For every search term and either setting of the ASCII switch, the
    listing is in strictly ascending order of id (no id occurs twice), it
    is part of the full listing (empty term, ASCII range included), and
    each of its entries is a true pair: a "vocabulary" entry is a unit with
    its id in the forward map, an "ascii" entry is a character of code 32 ..
    126 with the id code + 2000. *)
Theorem getVocabulary_listing (calls : list Call) (term : jsstring)
        (incl : bool) :
  let self := this (tokenizerAfter calls) in
  let listing := getVocabulary self term incl in
  StronglySorted ltToken listing /\
  (forall e, In e listing -> In e (getVocabulary self [] true)) /\
  (forall e, In e listing ->
     match VocabEntry.type e with
     | vocabularyType =>
         JsMap.get jsstring_eqb (VocabEntry.character e)
                   (TokenVisualizer.vocabulary self) = Some (VocabEntry.token e)
     | asciiType =>
         32 <= VocabEntry.token e - 2000 <= 126 /\
         VocabEntry.character e = [VocabEntry.token e - 2000]
     end).
Proof.
  cbv zeta. unfold getVocabulary.
  set (self := this (tokenizerAfter calls)).
  set (pre := vocabularyEntries self term
              ++ (if incl then asciiEntries self term else [])).
  replace (if incl then vocabularyEntries self term ++ asciiEntries self term
           else vocabularyEntries self term) with pre
    by (subst pre; destruct incl; [reflexivity | apply app_nil_r]).
  assert (M : forall e, In e pre ->
    (exists u id, e = tableEntry (u, id) /\
                  In (u, id) (JsMap.entries (TokenVisualizer.vocabulary self))) \/
    (exists i, e = charEntry i /\ 32 <= i <= 126)).
  { intros e H. subst pre. apply in_app_or in H. destruct H as [H|H].
    - left. rewrite vocabularyEntries_filter in H. apply in_map_iff in H.
      destruct H as ([u id] & <- & H). apply filter_In in H.
      exists u, id. tauto.
    - right. destruct incl; [|contradiction].
      rewrite asciiEntries_filter in H. apply in_map_iff in H.
      destruct H as (i & <- & H). apply filter_In in H. destruct H as [H _].
      apply printableAscii_range in H. exists i. split; [|exact H].
      unfold charEntry, fromCharCode. subst self.
      rewrite tokenizer_asciiOffset, Z.mod_small by lia. reflexivity. }
  split; [|split].
  - apply strictly_sorted; [apply sortByToken_sorted|].
    apply (Permutation_NoDup
             (Permutation_map VocabEntry.token
                (Permutation_sym (sortByToken_perm pre)))).
    apply listing_tokens_distinct.
  - intros e H.
    apply (Permutation_in _ (sortByToken_perm pre)) in H.
    apply (Permutation_in _ (Permutation_sym (sortByToken_perm _))).
    rewrite vocabularyEntries_all. subst self. rewrite asciiEntries_all.
    apply in_or_app. destruct (M e H) as [(u & id & -> & I)|(i & -> & I)].
    + left. apply in_map; exact I.
    + right. apply in_map. apply printableAscii_range; exact I.
  - intros e H.
    apply (Permutation_in _ (sortByToken_perm pre)) in H.
    destruct (M e H) as [(u & id & -> & I)|(i & -> & I)]; simpl.
    + apply vocabulary_entry_get; exact I.
    + split; [lia | f_equal; lia].
Qed.


(* ===================================================================== *)
(** * The token input of the decoding tab *)
(* ===================================================================== *)

Lemma isDigit_range (c : Z) : isDigit c = true <-> 48 <= c <= 57.
Proof.
  unfold isDigit. rewrite andb_true_iff, !Z.leb_le.
  split; intros [A B]; split; assumption.
Qed.

Lemma nonWhitespace_range (c : Z) : 33 <= c <= 126 -> isWhitespace c = false.
Proof.
  intros H. unfold isWhitespace.
  repeat match goal with
         | |- context [?a =? ?b] =>
             replace (a =? b) with false by (symmetry; apply Z.eqb_neq; lia)
         end.
  replace (c <=? 13) with false by (symmetry; apply Z.leb_gt; lia).
  replace (8192 <=? c) with false by (symmetry; apply Z.leb_gt; lia).
  rewrite andb_false_r. reflexivity.
Qed.

Lemma digitValue_digit (c : Z) :
  isDigit c = true -> digitValue 10 c = Some (c - 48).
Proof.
  intros H. unfold digitValue. fold (isDigit c). rewrite H.
  apply isDigit_range in H.
  replace (c - 48 <? 10) with true by (symmetry; apply Z.ltb_lt; lia).
  reflexivity.
Qed.

Lemma valueFrom_cons (a d : Z) (ds : jsstring) :
  valueFrom a (d :: ds) = valueFrom (a * 10 + (d - 48)) ds.
Proof. reflexivity. Qed.

(** The digits written for [n] denote [n]. *)
Lemma decimalDigits_value (fuel : nat) :
  forall n acc, 0 <= n < 2 ^ Z.of_nat fuel ->
                valueFrom 0 (decimalDigits fuel n acc) = valueFrom n acc.
Proof.
  induction fuel as [|fuel IH]; intros n acc H.
  - simpl in *. replace n with 0 by lia. reflexivity.
  - cbn [decimalDigits]. cbv zeta.
    assert (D : n = 10 * (n / 10) + n mod 10) by (apply Z.div_mod; lia).
    pose proof (Z.mod_pos_bound n 10 ltac:(lia)) as M.
    destruct (n / 10 =? 0) eqn:E.
    + apply Z.eqb_eq in E. rewrite valueFrom_cons. f_equal. lia.
    + rewrite IH.
      * rewrite valueFrom_cons. f_equal. lia.
      * rewrite Nat2Z.inj_succ, Z.pow_succ_r in H by lia.
        split; [apply Z.div_pos; lia|].
        apply Z.div_lt_upper_bound; lia.
Qed.

Lemma decimalDigits_digits (fuel : nat) :
  forall n acc, 0 <= n -> Forall (fun c => isDigit c = true) acc ->
                Forall (fun c => isDigit c = true) (decimalDigits fuel n acc).
Proof.
  induction fuel as [|fuel IH]; intros n acc H A; [exact A|].
  cbn [decimalDigits]. cbv zeta.
  pose proof (Z.mod_pos_bound n 10 ltac:(lia)) as M.
  assert (A' : Forall (fun c => isDigit c = true) ((48 + n mod 10) :: acc))
    by (constructor; [apply isDigit_range; lia | exact A]).
  destruct (n / 10 =? 0); [exact A'|].
  apply IH; [apply Z.div_pos; lia | exact A'].
Qed.

Lemma decimalDigits_nonempty (fuel : nat) :
  forall n acc, acc <> [] -> decimalDigits fuel n acc <> [].
Proof.
  induction fuel as [|fuel IH]; intros n acc A; [exact A|].
  cbn [decimalDigits]. cbv zeta.
  destruct (n / 10 =? 0); [discriminate | apply IH; discriminate].
Qed.

Lemma decimalNat_spec (n : Z) :
  0 <= n ->
  Forall (fun c => isDigit c = true) (decimalNat n) /\
  decimalNat n <> [] /\
  valueFrom 0 (decimalNat n) = n.
Proof.
  intros H. unfold decimalNat. split; [|split].
  - apply decimalDigits_digits; [exact H | constructor].
  - cbn [decimalDigits]. cbv zeta.
    destruct (n / 10 =? 0); [discriminate|].
    apply decimalDigits_nonempty; discriminate.
  - rewrite decimalDigits_value; [reflexivity|].
    rewrite Nat2Z.inj_succ, Z2Nat.id by apply Z.log2_nonneg.
    destruct (Z.eq_dec n 0) as [->|N]; [simpl; lia|].
    pose proof (Z.log2_spec n ltac:(lia)). lia.
Qed.

Lemma digitsPrefix_decimal (ds : jsstring) :
  forall rest acc,
    Forall (fun c => isDigit c = true) ds ->
    match rest with [] => True | g :: _ => digitValue 10 g = None end ->
    digitsPrefix 10 (ds ++ rest) acc =
    match ds with
    | [] => acc
    | _ :: _ =>
        Some (valueFrom (match acc with Some a => a | None => 0 end) ds)
    end.
Proof.
  induction ds as [|d ds IH]; intros rest acc D R.
  - simpl. destruct rest as [|g rest]; [reflexivity|].
    simpl. rewrite R. reflexivity.
  - inversion D as [|? ? Hd D']; subst.
    cbn [app digitsPrefix]. rewrite (digitValue_digit d Hd).
    rewrite (IH rest _ D' R). rewrite valueFrom_cons.
    destruct ds as [|d' ds]; destruct acc as [a|]; reflexivity.
Qed.


(** An entry that starts with decimal digits is read as the number they
    denote, whatever follows them. *)
Lemma parseInt_decimal (ds rest : jsstring) :
  Forall (fun c => isDigit c = true) ds -> ds <> [] ->
  match rest with
  | [] => True
  | g :: _ => digitValue 10 g = None /\ g <> 120 /\ g <> 88
  end ->
  parseInt (ds ++ rest) = Some (valueFrom 0 ds).
Proof.
  intros D N R. destruct ds as [|d ds]; [contradiction|].
  inversion D as [|? ? Hd D']; subst.
  pose proof (proj1 (isDigit_range d) Hd) as Rd.
  unfold parseInt. cbn [app trimStart].
  rewrite (nonWhitespace_range d) by lia. cbv zeta.
  replace (d =? 45) with false by (symmetry; apply Z.eqb_neq; lia).
  replace (d =? 43) with false by (symmetry; apply Z.eqb_neq; lia).
  cbn [orb].
  assert (X : match ds ++ rest with
              | x :: _ => (d =? 48) && ((x =? 120) || (x =? 88))
              | [] => false
              end = false).
  { destruct ds as [|d' ds].
    - destruct rest as [|g rest]; [reflexivity|]. simpl.
      destruct R as (_ & R1 & R2). apply Z.eqb_neq in R1, R2.
      rewrite R1, R2, andb_false_r. reflexivity.
    - simpl. inversion D' as [|? ? Hd' _]; subst.
      apply isDigit_range in Hd'.
      replace (d' =? 120) with false by (symmetry; apply Z.eqb_neq; lia).
      replace (d' =? 88) with false by (symmetry; apply Z.eqb_neq; lia).
      rewrite andb_false_r. reflexivity. }
  rewrite X.
  change (d :: ds ++ rest) with ((d :: ds) ++ rest).
  rewrite digitsPrefix_decimal.
  - f_equal. lia.
  - exact D.
  - destruct rest as [|g rest]; [exact I | exact (proj1 R)].
Qed.


Lemma trimStart_keeps (c : Z) (s : jsstring) :
  isWhitespace c = false -> trimStart (c :: s) = c :: s.
Proof. intros H. simpl. rewrite H. reflexivity. Qed.

Lemma trimStart_snoc (s : jsstring) (z : Z) :
  isWhitespace z = false -> trimStart (s ++ [z]) = trimStart s ++ [z].
Proof.
  intros H. induction s as [|c s IH]; simpl; [rewrite H; reflexivity|].
  destruct (isWhitespace c); [exact IH | reflexivity].
Qed.

(** [trimEnd] stops at the last character that is not whitespace. *)
Lemma trimEnd_snoc (s : jsstring) (z : Z) :
  isWhitespace z = false -> trimEnd (s ++ [z]) = s ++ [z].
Proof.
  intros H. unfold trimEnd. rewrite rev_app_distr. simpl.
  rewrite H. simpl. rewrite rev_involutive. reflexivity.
Qed.

Lemma trimEnd_cons (c : Z) (s : jsstring) :
  isWhitespace c = false -> trimEnd (c :: s) = c :: trimEnd s.
Proof.
  intros H. unfold trimEnd. simpl rev.
  rewrite trimStart_snoc by exact H. rewrite rev_app_distr. reflexivity.
Qed.

(** A string whose first and last characters are not whitespace is its own
    trim. *)
Lemma trim_same (c z : Z) (s : jsstring) :
  isWhitespace c = false -> isWhitespace z = false ->
  trim (c :: s ++ [z]) = c :: s ++ [z].
Proof.
  intros Hc Hz. unfold trim. rewrite trimStart_keeps by exact Hc.
  change (c :: s ++ [z]) with ((c :: s) ++ [z]).
  apply trimEnd_snoc; exact Hz.
Qed.

Lemma trim_single (c : Z) : isWhitespace c = false -> trim [c] = [c].
Proof.
  intros Hc. unfold trim. rewrite trimStart_keeps by exact Hc.
  apply (trimEnd_snoc [] c Hc).
Qed.

Lemma digits_trim (ds : jsstring) :
  Forall (fun c => isDigit c = true) ds ->
  trim ds = ds /\ trim (32 :: ds) = ds.
Proof.
  intros D.
  assert (W : Forall (fun c => isWhitespace c = false) ds).
  { revert D. apply Forall_impl. intros c H. apply isDigit_range in H.
    apply nonWhitespace_range; lia. }
  assert (T : trim ds = ds).
  { destruct ds as [|d ds]; [reflexivity|].
    inversion W as [|? ? Wd W']; subst.
    destruct (exists_last (l := d :: ds) ltac:(discriminate)) as (s & z & E).
    destruct s as [|c s].
    - simpl in E. injection E as -> ->. apply trim_single; assumption.
    - simpl in E. injection E as -> ->.
      apply (trim_same c z s); [exact Wd|].
      rewrite Forall_forall in W'. apply W'. apply in_or_app. right. left.
      reflexivity. }
  split; [exact T|].
  unfold trim in *. simpl trimStart. exact T.
Qed.

Lemma splitFrom_piece (p : jsstring) :
  forall s piece,
    Forall (fun c => c <> 44) p ->
    splitFrom (p ++ s) piece = splitFrom s (piece ++ p).
Proof.
  induction p as [|c p IH]; intros s piece H.
  - simpl. rewrite app_nil_r. reflexivity.
  - inversion H as [|? ? Hc H']; subst. simpl.
    apply Z.eqb_neq in Hc. rewrite Hc. rewrite IH by exact H'.
    rewrite <- app_assoc. reflexivity.
Qed.

(** Splitting a list joined with ", " gives the pieces back, all but the
    first with the space in front. *)
Lemma splitFrom_join (pieces : list jsstring) :
  forall p piece,
    Forall (Forall (fun c => c <> 44)) (p :: pieces) ->
    splitFrom (joinPieces (p :: pieces)) piece =
    (piece ++ p) :: map (cons 32) pieces.
Proof.
  induction pieces as [|q pieces IH]; intros p piece H.
  - inversion H; subst. simpl joinPieces.
    rewrite <- (app_nil_r p) at 1. rewrite splitFrom_piece by assumption.
    reflexivity.
  - inversion H as [|? ? Hp H']; subst.
    change (joinPieces (p :: q :: pieces))
      with (p ++ [44; 32] ++ joinPieces (q :: pieces)).
    rewrite splitFrom_piece by exact Hp.
    cbn [app splitFrom]. rewrite Z.eqb_refl.
    replace (32 =? 44) with false by reflexivity.
    rewrite (IH q [32] H'). reflexivity.
Qed.

Lemma digits_noComma (ds : jsstring) :
  Forall (fun c => isDigit c = true) ds -> Forall (fun c => c <> 44) ds.
Proof.
  apply Forall_impl. intros c H. apply isDigit_range in H. lia.
Qed.

Lemma parseEntries_decimal (tokens : list Z) :
  Forall (fun t => 0 <= t) tokens ->
  parseEntries (map (cons 32) (map decimalNat tokens)) = inr tokens.
Proof.
  induction 1 as [|t tokens Ht H IH]; [reflexivity|].
  destruct (decimalNat_spec t Ht) as (D & N & V).
  cbn [map parseEntries]. rewrite (proj2 (digits_trim _ D)).
  rewrite <- (app_nil_r (decimalNat t)) at 1.
  rewrite (parseInt_decimal _ [] D N I), V, IH. reflexivity.
Qed.

(** The joined text of non-empty digit strings starts and ends with a
    digit. *)
Lemma joinPieces_digits (pieces : list jsstring) :
  forall p,
    Forall (fun q => Forall (fun c => isDigit c = true) q /\ q <> [])
           (p :: pieces) ->
    exists c s z,
      (joinPieces (p :: pieces) = c :: s ++ [z] \/
       (joinPieces (p :: pieces) = [c] /\ z = c)) /\
      isDigit c = true /\ isDigit z = true.
Proof.
  induction pieces as [|q pieces IH]; intros p H.
  - inversion H as [|? ? [D N] _]; subst. simpl joinPieces.
    destruct p as [|c p]; [contradiction|].
    inversion D as [|? ? Hc D']; subst.
    destruct p as [|c' p].
    + exists c, [], c. auto.
    + destruct (exists_last (l := c' :: p) ltac:(discriminate)) as (s & z & E).
      exists c, s, z. rewrite E. split; [left; reflexivity|].
      split; [exact Hc|].
      rewrite Forall_forall in D'. apply D'. rewrite E.
      apply in_or_app. right. left. reflexivity.
  - inversion H as [|? ? [D N] H']; subst.
    destruct (IH q H') as (c' & s' & z & J & _ & Hz).
    destruct p as [|c p]; [contradiction|].
    inversion D as [|? ? Hc _]; subst.
    change (joinPieces ((c :: p) :: q :: pieces))
      with (c :: p ++ [44; 32] ++ joinPieces (q :: pieces)).
    destruct J as [J|[J ->]]; rewrite J.
    + exists c, (p ++ [44; 32] ++ c' :: s'), z.
      split; [left|auto]. rewrite <- !app_assoc. reflexivity.
    + exists c, (p ++ [44; 32]), c'.
      split; [left|auto]. rewrite <- !app_assoc. reflexivity.
Qed.


Lemma splitFrom_head (s : jsstring) :
  forall piece, exists p rest, splitFrom s piece = (piece ++ p) :: rest.
Proof.
  induction s as [|c s IH]; intros piece.
  - exists [], []. simpl. rewrite app_nil_r. reflexivity.
  - simpl. destruct (c =? 44).
    + exists [], (splitFrom s []). rewrite app_nil_r. reflexivity.
    + destruct (IH (piece ++ [c])) as (p & rest & E).
      exists (c :: p), rest. rewrite E, <- app_assoc. reflexivity.
Qed.

(** X17.  The comma-separated tokens the encoder writes are read back as the
    same tokens: for a non-empty list of non-negative integers below 2^53,
    written in decimal by the host and joined with ", ", the decoding tab
    hands exactly these tokens to [decodeTokens]. *)
Theorem readTokenInput_joined (tokens : list Z) :
  writesDecimal numberToString ->
  tokens <> [] ->
  Forall (fun t => 0 <= t < 2 ^ 53) tokens ->
  readTokenInput (joinTokens tokens) = ParsedTokens tokens.
Proof.
  intros W N B. unfold joinTokens.
  rewrite (map_ext_in numberToString decimalNat)
    by (intros t T; apply W; rewrite Forall_forall in B; apply B; exact T).
  destruct tokens as [|t tokens]; [contradiction|].
  inversion B as [|? ? Bt B']; subst.
  assert (P : Forall (fun q => Forall (fun c => isDigit c = true) q /\ q <> [])
                     (map decimalNat (t :: tokens))).
  { apply Forall_map. revert B. apply Forall_impl. intros n Hn.
    destruct (decimalNat_spec n ltac:(lia)) as (D & E & _). auto. }
  cbn [map] in *.
  destruct (joinPieces_digits _ _ P) as (c & s & z & J & Hc & Hz).
  apply isDigit_range in Hc, Hz.
  assert (T : trim (joinPieces (decimalNat t :: map decimalNat tokens))
              = joinPieces (decimalNat t :: map decimalNat tokens)).
  { destruct J as [J|[J _]]; rewrite J;
      [apply trim_same | apply trim_single]; apply nonWhitespace_range; lia. }
  unfold readTokenInput. cbv zeta. rewrite T.
  assert (NE : nonEmpty (joinPieces (decimalNat t :: map decimalNat tokens))
               = true) by (destruct J as [J|[J _]]; rewrite J; reflexivity).
  rewrite NE. cbn [negb]. unfold splitComma.
  rewrite splitFrom_join.
  - destruct (decimalNat_spec t ltac:(lia)) as (D & E & V).
    cbn [app parseEntries]. rewrite (proj1 (digits_trim _ D)).
    rewrite <- (app_nil_r (decimalNat t)) at 1.
    rewrite (parseInt_decimal _ [] D E I), V.
    rewrite parseEntries_decimal; [reflexivity|].
    revert B'. apply Forall_impl. intros; lia.
  - revert P. apply Forall_impl. intros q [D _]. apply digits_noComma; exact D.
Qed.

(** X18.  The text the encoder displays, [[t1, t2, ...]] with its brackets, is
    not accepted by the decoding tab: whatever the tokens, reading it fails
    at the first entry, which starts with the opening bracket. *)
Theorem readTokenInput_shown (tokens : list Z) :
  exists e, readTokenInput (shownTokens tokens) = InvalidToken (91 :: e).
Proof.
  unfold shownTokens, readTokenInput. cbv zeta. cbn [app].
  assert (B : isWhitespace 91 = false) by reflexivity.
  assert (C : isWhitespace 93 = false) by reflexivity.
  rewrite (trim_same 91 93 (joinTokens tokens) B C).
  cbn [nonEmpty negb]. unfold splitComma. cbn [splitFrom].
  replace (91 =? 44) with false by reflexivity.
  destruct (splitFrom_head (joinTokens tokens ++ [93]) ([] ++ [91]))
    as (p & rest & E).
  rewrite E. cbn [app parseEntries].
  unfold trim. rewrite trimStart_keeps, trimEnd_cons by exact B.
  exists (trimEnd p).
  assert (P : parseInt (91 :: trimEnd p) = None).
  { unfold parseInt. rewrite trimStart_keeps by exact B. cbv zeta.
    replace (91 =? 45) with false by reflexivity.
    replace (91 =? 43) with false by reflexivity. cbn [orb].
    replace (91 =? 48) with false by reflexivity. cbn [andb].
    destruct (trimEnd p); reflexivity. }
  rewrite P. reflexivity.
Qed.



(* ===================================================================== *)
(** * Which units are vocabulary tokens *)
(* ===================================================================== *)

Lemma lastAt_exists (units : list jsstring) (u : jsstring) :
  In u units -> exists id, lastAt units u id.
Proof.
  induction units as [|x units IH] using rev_ind; [contradiction|].
  intros H. destruct (jsstring_eqb x u) eqn:E.
  - apply jsstring_eqb_eq in E; subst x.
    exists (Z.of_nat (List.length units)). unfold lastAt.
    rewrite Nat2Z.id. split; [lia|]. split.
    + rewrite nth_error_app2, Nat.sub_diag by lia. reflexivity.
    + intros k K.
      assert (nth_error (units ++ [u]) k = None) as ->
        by (apply nth_error_None; rewrite length_app; simpl; lia).
      discriminate.
  - assert (N : x <> u)
      by (intros ->; rewrite jsstring_eqb_refl in E; discriminate).
    apply in_app_or in H. destruct H as [H|[H|[]]]; [|contradiction].
    destruct (IH H) as (id & P & Q & L).
    assert (B : (Z.to_nat id < List.length units)%nat)
      by (apply nth_error_Some; rewrite Q; discriminate).
    exists id. split; [exact P|]. split.
    + rewrite nth_error_app1 by exact B. exact Q.
    + intros k K F.
      destruct (Nat.lt_ge_cases k (List.length units)) as [K'|K'].
      * rewrite nth_error_app1 in F by exact K'. exact (L k K F).
      * rewrite nth_error_app2 in F by exact K'.
        destruct (k - List.length units)%nat as [|j]; simpl in F.
        -- injection F as F; contradiction.
        -- destruct j; discriminate.
Qed.

(** The forward map has an entry exactly for the seeded units. *)
Lemma vocabulary_domain (calls : list Call) (u : jsstring) :
  JsMap.has jsstring_eqb u
    (TokenVisualizer.vocabulary (this (tokenizerAfter calls))) = true
  <-> In u seedUnits.
Proof.
  rewrite has_true_iff. split.
  - intros (id & H). apply vocabulary_get in H. destruct H as (_ & Q & _).
    apply (nth_error_In _ _ Q).
  - intros H. destruct (lastAt_exists _ _ H) as (id & L).
    exists id. apply vocabulary_get; exact L.
Qed.

(** X15.  When a text is a single unit, it is encoded as one vocabulary token,
    the last seeded position of its lower-cased form, exactly when that
    form is one of the seeded units (a special marker, a lower-cased common
    word, or a punctuation character); otherwise it is encoded by the ASCII
    fallback, one token per code point, the first code unit plus 2000. *)
Theorem encodeText_single_unit (calls : list Call) (u : jsstring) :
  tokenizeWords u = [u] ->
  let tokens := EncodeResult.tokens (fst (encodeText u (tokenizerAfter calls))) in
  (In (toLowerCase u) seedUnits ->
   exists id, tokens = [id] /\ lastAt seedUnits (toLowerCase u) id) /\
  (~ In (toLowerCase u) seedUnits ->
   tokens = map (fun char => charCodeAt0 char + 2000) (arrayFrom u)).
Proof.
  intros T. cbv zeta. rewrite encodeText_tokens. unfold encodedTokens.
  rewrite T. cbn [flat_map]. rewrite app_nil_r.
  unfold encodeWordTokens, encodeToAscii. rewrite tokenizer_asciiOffset.
  split.
  - intros H. apply (vocabulary_domain calls) in H.
    apply has_true_iff in H. destruct H as (id & G). rewrite G.
    exists id. split; [reflexivity|]. apply (vocabulary_get calls); exact G.
  - intros H.
    destruct (JsMap.get jsstring_eqb (toLowerCase u) _) as [id|] eqn:G;
      [|reflexivity].
    exfalso. apply H. apply (vocabulary_domain calls).
    apply has_true_iff. eauto.
Qed.


(** X16.  A non-empty text made of spaces only is not treated like the empty
    text: the result has all its properties, with no token, no step, a
    [tokenCount] of 0 and the character count of the text. *)
Theorem encodeText_only_spaces (calls : list Call) (text : jsstring) :
  text <> [] ->
  Forall (fun c => c = 32) text ->
  observeEncode (encodeText text (tokenizerAfter calls)) =
  ([], [], Some text, Some 0, Some (Z.of_nat (List.length text))).
Proof.
  intros N S.
  assert (T : tokenizeWords text = []).
  { destruct (units_concat text) as [C E].
    assert (F : filter notSpace text = []).
    { clear - S. induction S as [|c text -> S IH]; [reflexivity|].
      simpl. exact IH. }
    rewrite F in C.
    destruct (tokenizeWords text) as [|u us]; [reflexivity|].
    inversion E as [|? ? Hu _]; subst.
    destruct u; [contradiction | discriminate C]. }
  rewrite observeEncode_run. unfold encodedTokens. rewrite T.
  destruct text; [contradiction | reflexivity].
Qed.


(* ===================================================================== *)
(** * The sign of the compression ratio *)
(* ===================================================================== *)

Lemma binary_round_aux_notNegative (mx ex : Z) (lx : location) :
  notNegative (binary_round_aux 53 1024 false mx ex lx) = true.
Proof.
  unfold binary_round_aux.
  destruct (shr_fexp 53 1024 mx ex lx) as [mrs' e'].
  destruct (shr_fexp 53 1024 _ e' loc_Exact) as [mrs'' e''].
  destruct (shr_m mrs''); [reflexivity | | reflexivity].
  destruct (Z.leb e'' _); reflexivity.
Qed.

Lemma ofInt_notNegative (z : Z) : 0 <= z -> notNegative (ofInt z) = true.
Proof.
  intros H. unfold ofInt, binary_normalize.
  destruct z as [|m|m]; [reflexivity | | lia].
  unfold binary_round. destruct (shl_align m 0 _) as [mz ez].
  apply binary_round_aux_notNegative.
Qed.

Lemma fdiv_notNegative (x y : double) :
  notNegative x = true -> notNegative y = true ->
  notNegative (fdiv x y) = true.
Proof.
  unfold fdiv, SFdiv.
  destruct x as [sx|sx| |sx mx ex], y as [sy|sy| |sy my ey]; simpl;
    intros Hx Hy; try reflexivity;
    try (apply negb_true_iff in Hx; subst sx);
    try (apply negb_true_iff in Hy; subst sy);
    try reflexivity.
  destruct (SFdiv_core_binary 53 1024 (Z.pos mx) ex (Z.pos my) ey)
    as [[mz ez] lz].
  apply binary_round_aux_notNegative.
Qed.

Lemma fmul_notNegative (x y : double) :
  notNegative x = true -> notNegative y = true ->
  notNegative (fmul x y) = true.
Proof.
  unfold fmul, SFmul.
  destruct x as [sx|sx| |sx mx ex], y as [sy|sy| |sy my ey]; simpl;
    intros Hx Hy; try reflexivity;
    try (apply negb_true_iff in Hx; subst sx);
    try (apply negb_true_iff in Hy; subst sy);
    try reflexivity.
  apply binary_round_aux_notNegative.
Qed.

Lemma nearestTenths_nonneg (m : positive) (e : Z) : 0 <= nearestTenths m e.
Proof.
  unfold nearestTenths. destruct (0 <=? e) eqn:E.
  - apply Z.leb_le in E.
    assert (0 <= 2 ^ e) by (apply Z.pow_nonneg; lia). nia.
  - apply Z.leb_gt in E.
    assert (0 < 2 ^ (- e)) by (apply Z.pow_pos_nonneg; lia).
    assert (0 < 2 ^ (- e + 1)) by (apply Z.pow_pos_nonneg; lia).
    apply Z.div_pos; lia.
Qed.

(** [fixedDigits1] starts with a digit. *)
Lemma fixedDigits1_head (n : Z) :
  0 <= n -> isDigit (hd 0 (fixedDigits1 n)) = true.
Proof.
  intros H. unfold fixedDigits1. cbv zeta.
  destruct (decimalNat_spec n H) as (D & N & _).
  destruct (decimalNat n) as [|d ds]; [contradiction|].
  inversion D as [|? ? Hd D']; subst.
  destruct ds as [|d' ds]; [reflexivity|].
  cbn [List.length Nat.leb]. simpl Nat.sub. simpl firstn. exact Hd.
Qed.

(** X20.  The compression ratio never shows a minus sign.  For every text
    the ratio is the number 0 or a string that does not start with "-":
    the token count never exceeds the character count, so the quotient and
    the product are computed from non-negative doubles and keep a clear sign
    bit, and [toFixed] writes a minus sign only for a negative argument.
    (The host's number-to-string conversion, used by [toFixed] from 10^21
    on, is assumed to write no minus sign for a non-negative integer.) *)
Theorem compressionRatio_not_negative (calls : list Call) (text : jsstring) :
  (forall n, 0 <= n -> hd 0 (numberToString n) <> 45) ->
  match Stats.compressionRatio
          (fst (getEncodingStats text (tokenizerAfter calls))) with
  | RatioNumber n => n = 0
  | RatioString s => hd 0 s <> 45
  end.
Proof.
  intros Host. rewrite getEncodingStats_run. cbn [fst Stats.compressionRatio].
  rewrite encodeText_tokens.
  pose proof (encodedTokens_length (this (tokenizerAfter calls)) text) as B.
  set (c := Z.of_nat (List.length text)).
  set (t := Z.of_nat (List.length (encodedTokens (this (tokenizerAfter calls)) text))).
  assert (Bt : 0 <= t <= c) by (subst c t; lia).
  unfold compressionRatioOf. destruct (0 <? c) eqn:P; [|reflexivity].
  apply Z.ltb_lt in P.
  assert (S : notNegative (fmul (fdiv (ofInt (c - t)) (ofInt c)) (ofInt 100))
              = true).
  { apply fmul_notNegative; [apply fdiv_notNegative|];
      apply ofInt_notNegative; lia. }
  destruct (fmul (fdiv (ofInt (c - t)) (ofInt c)) (ofInt 100))
    as [s|s| |s m e]; simpl in S; try (apply negb_true_iff in S; subst s);
    unfold toFixed1.
  - vm_compute. discriminate.
  - vm_compute. discriminate.
  - vm_compute. discriminate.
  - cbn [app]. destruct (atLeast1e21 m e).
    + apply Host. assert (0 <= 2 ^ e) by (apply Z.pow_nonneg; lia). nia.
    + pose proof (fixedDigits1_head _ (nearestTenths_nonneg m e)) as D.
      apply isDigit_range in D. lia.
Qed.

End Host.

(* ===================================================================== *)
(** * The theorems at concrete inputs *)
(* ===================================================================== *)

(** Below, the host functions are instantiated with [asciiLower] and
    [decimalString], which agree with the host on the inputs used. *)

(** C1 as stated fails on the empty text: the result has no [tokenCount]
    property, while its [tokens] has length 0. *)
Lemma encodeText_empty_tokenCount :
  EncodeResult.tokenCount
    (fst (encodeText asciiLower [] (tokenizerAfter asciiLower decimalString [])))
  = None /\
  List.length
    (EncodeResult.tokens
       (fst (encodeText asciiLower [] (tokenizerAfter asciiLower decimalString []))))
  = 0%nat.
Proof. split; reflexivity. Qed.

Lemma decode_unknown_token_witness :
  JsMap.has Z.eqb 999
    (TokenVisualizer.reverseVocabulary
       (this (tokenizerAfter asciiLower decimalString []))) = false /\
  999 < 2000 /\
  DecodeResult.text
    (fst (decodeTokens decimalString ([2072] ++ 999 :: [2101])
            (tokenizerAfter asciiLower decimalString [])))
  = DecodeResult.text
      (fst (decodeTokens decimalString [2072]
              (tokenizerAfter asciiLower decimalString [])))
    ++ str "<UNK>"
    ++ DecodeResult.text
         (fst (decodeTokens decimalString [2101]
                 (tokenizerAfter asciiLower decimalString []))).
Proof.
  assert (H : JsMap.has Z.eqb 999
                (TokenVisualizer.reverseVocabulary
                   (this (tokenizerAfter asciiLower decimalString []))) = false)
    by (vm_compute; reflexivity).
  assert (L : 999 < 2000) by lia.
  split; [exact H|]. split; [exact L|].
  exact (proj1 (decode_unknown_token asciiLower decimalString []
                                     [2072] [2101] 999 H L)).
Defined.


Lemma decode_vocabulary_id_witness :
  JsMap.get jsstring_eqb (str "the")
    (TokenVisualizer.vocabulary
       (this (tokenizerAfter asciiLower decimalString []))) = Some 10 /\
  DecodeResult.text
    (fst (decodeTokens decimalString [10]
            (tokenizerAfter asciiLower decimalString [])))
  = str "the".
Proof.
  assert (H : JsMap.get jsstring_eqb (str "the")
                (TokenVisualizer.vocabulary
                   (this (tokenizerAfter asciiLower decimalString []))) = Some 10)
    by (vm_compute; reflexivity).
  split; [exact H|].
  exact (decode_vocabulary_id asciiLower decimalString [] (str "the") 10 H).
Defined.

Lemma encode_decode_single_char_witness :
  isCodeUnit 120 /\
  tokenizeWords [120] = [[120]] /\
  JsMap.has jsstring_eqb (asciiLower [120])
    (TokenVisualizer.vocabulary
       (this (tokenizerAfter asciiLower decimalString []))) = false /\
  DecodeResult.text
    (fst (decodeTokens decimalString
            (EncodeResult.tokens
               (fst (encodeText asciiLower [120]
                       (tokenizerAfter asciiLower decimalString []))))
            (snd (encodeText asciiLower [120]
                    (tokenizerAfter asciiLower decimalString [])))))
  = [120].
Proof.
  assert (C : isCodeUnit 120) by (unfold isCodeUnit; lia).
  assert (T : tokenizeWords [120] = [[120]]) by reflexivity.
  assert (H : JsMap.has jsstring_eqb (asciiLower [120])
                (TokenVisualizer.vocabulary
                   (this (tokenizerAfter asciiLower decimalString []))) = false)
    by (vm_compute; reflexivity).
  split; [exact C|]. split; [exact T|]. split; [exact H|].
  exact (proj2 (encode_decode_single_char asciiLower decimalString [] 120 [120]
                                          C T H)).
Defined.


(* ===================================================================== *)
(** * The further properties at concrete inputs *)
(* ===================================================================== *)

Lemma isCodeUnit_forallb (s : jsstring) :
  forallb (fun c => (0 <=? c) && (c <? 65536)) s = true -> Forall isCodeUnit s.
Proof.
  intros H. apply Forall_forall. intros c C.
  rewrite forallb_forall in H. specialize (H c C).
  apply andb_true_iff in H. rewrite Z.leb_le, Z.ltb_lt in H. exact H.
Qed.

Lemma noHighSurrogate_forallb (s : jsstring) :
  forallb (fun c => negb (isHighSurrogate c)) s = true ->
  Forall (fun c => isHighSurrogate c = false) s.
Proof.
  intros H. apply Forall_forall. intros c C.
  rewrite forallb_forall in H. specialize (H c C).
  apply negb_true_iff in H. exact H.
Qed.

Lemma asciiLower_noUpper : lowerHasNoUpper asciiLower.
Proof.
  intros s c H R. unfold asciiLower in H. apply in_map_iff in H.
  destruct H as (x & E & _). unfold asciiLowerUnit in E.
  destruct ((65 <=? x) && (x <=? 90)) eqn:U.
  - apply andb_true_iff in U. rewrite !Z.leb_le in U. lia.
  - subst x. assert ((65 <=? c) && (c <=? 90) = true)
      by (apply andb_true_iff; rewrite !Z.leb_le; exact R).
    congruence.
Qed.

Lemma encodeText_separator_witness :
  isRegular 44 = false /\
  EncodeResult.tokens
    (fst (encodeText asciiLower (str "hi" ++ 44 :: str "the")
            (tokenizerAfter asciiLower decimalString [])))
  = EncodeResult.tokens
      (fst (encodeText asciiLower (str "hi")
              (tokenizerAfter asciiLower decimalString [])))
    ++ EncodeResult.tokens
         (fst (encodeText asciiLower [44]
                 (tokenizerAfter asciiLower decimalString [])))
    ++ EncodeResult.tokens
         (fst (encodeText asciiLower (str "the")
                 (tokenizerAfter asciiLower decimalString []))).
Proof.
  assert (C : isRegular 44 = false) by reflexivity.
  split; [exact C|].
  exact (proj2 (encodeText_separator asciiLower decimalString []
                                     (str "hi") 44 (str "the") C)).
Defined.

Lemma encodeText_token_range_witness :
  Forall isCodeUnit (str "the cat") /\
  Forall (fun token =>
            (0 <= token < 208 /\
             JsMap.has Z.eqb token
               (TokenVisualizer.reverseVocabulary
                  (this (tokenizerAfter asciiLower decimalString []))) = true)
            \/
            (2000 <= token < 67536 /\
             JsMap.has Z.eqb token
               (TokenVisualizer.reverseVocabulary
                  (this (tokenizerAfter asciiLower decimalString []))) = false))
         (EncodeResult.tokens
            (fst (encodeText asciiLower (str "the cat")
                    (tokenizerAfter asciiLower decimalString [])))).
Proof.
  assert (W : Forall isCodeUnit (str "the cat"))
    by (apply isCodeUnit_forallb; reflexivity).
  split; [exact W|].
  exact (encodeText_token_range asciiLower decimalString [] (str "the cat") W).
Defined.

Lemma decode_encode_witness :
  Forall isCodeUnit (str "The cat") /\
  DecodeResult.text
    (fst (decodeTokens decimalString
            (EncodeResult.tokens
               (fst (encodeText asciiLower (str "The cat")
                       (tokenizerAfter asciiLower decimalString []))))
            (snd (encodeText asciiLower (str "The cat")
                    (tokenizerAfter asciiLower decimalString [])))))
  = flat_map (decodedUnit asciiLower
                (this (tokenizerAfter asciiLower decimalString [])))
             (tokenizeWords (str "The cat")).
Proof.
  assert (W : Forall isCodeUnit (str "The cat"))
    by (apply isCodeUnit_forallb; reflexivity).
  split; [exact W|].
  exact (decode_encode asciiLower decimalString [] (str "The cat") W).
Defined.

Lemma decode_encode_roundtrip_witness :
  Forall isCodeUnit (str "hello, the world") /\
  Forall (fun c => isHighSurrogate c = false) (str "hello, the world") /\
  (forall u, In u (tokenizeWords (str "hello, the world")) ->
             JsMap.has jsstring_eqb (asciiLower u)
               (TokenVisualizer.vocabulary
                  (this (tokenizerAfter asciiLower decimalString []))) = true ->
             asciiLower u = u) /\
  DecodeResult.text
    (fst (decodeTokens decimalString
            (EncodeResult.tokens
               (fst (encodeText asciiLower (str "hello, the world")
                       (tokenizerAfter asciiLower decimalString []))))
            (snd (encodeText asciiLower (str "hello, the world")
                    (tokenizerAfter asciiLower decimalString [])))))
  = filter notSpace (str "hello, the world").
Proof.
  assert (W : Forall isCodeUnit (str "hello, the world"))
    by (apply isCodeUnit_forallb; reflexivity).
  assert (S : Forall (fun c => isHighSurrogate c = false)
                     (str "hello, the world"))
    by (apply noHighSurrogate_forallb; reflexivity).
  assert (L : forall u, In u (tokenizeWords (str "hello, the world")) ->
             JsMap.has jsstring_eqb (asciiLower u)
               (TokenVisualizer.vocabulary
                  (this (tokenizerAfter asciiLower decimalString []))) = true ->
             asciiLower u = u).
  { intros u H _.
    replace (tokenizeWords (str "hello, the world"))
      with [str "hello"; [44]; str "the"; str "world"] in H by reflexivity.
    destruct H as [<-|[<-|[<-|[<-|[]]]]]; reflexivity. }
  split; [exact W|]. split; [exact S|]. split; [exact L|].
  exact (decode_encode_roundtrip asciiLower decimalString []
                                 (str "hello, the world") W S L).
Defined.

Lemma encode_surrogate_pair_witness :
  isHighSurrogate 55357 = true /\ isLowSurrogate 56832 = true /\
  JsMap.has jsstring_eqb (asciiLower [55357; 56832])
    (TokenVisualizer.vocabulary
       (this (tokenizerAfter asciiLower decimalString []))) = false /\
  EncodeResult.tokens
    (fst (encodeText asciiLower [55357; 56832]
            (tokenizerAfter asciiLower decimalString []))) = [55357 + 2000] /\
  DecodeResult.text
    (fst (decodeTokens decimalString
            (EncodeResult.tokens
               (fst (encodeText asciiLower [55357; 56832]
                       (tokenizerAfter asciiLower decimalString []))))
            (snd (encodeText asciiLower [55357; 56832]
                    (tokenizerAfter asciiLower decimalString [])))))
  = [55357].
Proof.
  assert (Hc : isHighSurrogate 55357 = true) by reflexivity.
  assert (Hd : isLowSurrogate 56832 = true) by reflexivity.
  assert (H : JsMap.has jsstring_eqb (asciiLower [55357; 56832])
                (TokenVisualizer.vocabulary
                   (this (tokenizerAfter asciiLower decimalString []))) = false)
    by (vm_compute; reflexivity).
  split; [exact Hc|]. split; [exact Hd|]. split; [exact H|].
  exact (encode_surrogate_pair asciiLower decimalString [] 55357 56832 Hc Hd H).
Defined.

Lemma encodeText_no_special_ids_witness :
  lowerHasNoUpper asciiLower /\
  Forall isCodeUnit (str "<PAD> which") /\
  Forall (fun token =>
            10 <= token /\
            (token < 2000 -> exists u, lastAt (seedUnits asciiLower) u token))
         (EncodeResult.tokens
            (fst (encodeText asciiLower (str "<PAD> which")
                    (tokenizerAfter asciiLower decimalString [])))).
Proof.
  assert (W : Forall isCodeUnit (str "<PAD> which"))
    by (apply isCodeUnit_forallb; reflexivity).
  split; [exact asciiLower_noUpper|]. split; [exact W|].
  exact (encodeText_no_special_ids asciiLower decimalString []
                                   (str "<PAD> which") asciiLower_noUpper W).
Defined.

Lemma tokenText_of_encoding_witness :
  Forall isCodeUnit (str "the cat") /\
  flat_map (tokenText
              (this (snd (encodeText asciiLower (str "the cat")
                            (tokenizerAfter asciiLower decimalString [])))))
           (EncodeResult.tokens
              (fst (encodeText asciiLower (str "the cat")
                      (tokenizerAfter asciiLower decimalString []))))
  = DecodeResult.text
      (fst (decodeTokens decimalString
              (EncodeResult.tokens
                 (fst (encodeText asciiLower (str "the cat")
                         (tokenizerAfter asciiLower decimalString []))))
              (snd (encodeText asciiLower (str "the cat")
                      (tokenizerAfter asciiLower decimalString []))))).
Proof.
  assert (W : Forall isCodeUnit (str "the cat"))
    by (apply isCodeUnit_forallb; reflexivity).
  split; [exact W|].
  exact (proj1 (tokenText_of_encoding asciiLower decimalString []
                                      (str "the cat") W)).
Defined.

Lemma decimalString_writesDecimal : writesDecimal decimalString.
Proof.
  intros n H. unfold decimalString.
  replace (n <? 0) with false by (symmetry; apply Z.ltb_ge; lia).
  reflexivity.
Qed.

Lemma readTokenInput_joined_witness :
  writesDecimal decimalString /\
  [10; 2099; 2097; 2116] <> [] /\
  Forall (fun t => 0 <= t < 2 ^ 53) [10; 2099; 2097; 2116] /\
  readTokenInput (joinTokens decimalString [10; 2099; 2097; 2116])
  = ParsedTokens [10; 2099; 2097; 2116].
Proof.
  assert (N : [10; 2099; 2097; 2116] <> []) by discriminate.
  assert (B : Forall (fun t => 0 <= t < 2 ^ 53) [10; 2099; 2097; 2116])
    by (repeat constructor; lia).
  split; [exact decimalString_writesDecimal|]. split; [exact N|].
  split; [exact B|].
  exact (readTokenInput_joined decimalString [10; 2099; 2097; 2116]
                               decimalString_writesDecimal N B).
Defined.


Lemma encodeText_single_unit_witness :
  tokenizeWords (str "The") = [str "The"] /\
  In (asciiLower (str "The")) (seedUnits asciiLower) /\
  exists id,
    EncodeResult.tokens
      (fst (encodeText asciiLower (str "The")
              (tokenizerAfter asciiLower decimalString []))) = [id] /\
    lastAt (seedUnits asciiLower) (asciiLower (str "The")) id.
Proof.
  assert (T : tokenizeWords (str "The") = [str "The"]) by reflexivity.
  assert (I : In (asciiLower (str "The")) (seedUnits asciiLower)).
  { unfold seedUnits. apply in_or_app. right. apply in_or_app. left.
    apply in_map_iff. exists (str "the"). split; [reflexivity|].
    left. reflexivity. }
  split; [exact T|]. split; [exact I|].
  exact (proj1 (encodeText_single_unit asciiLower decimalString []
                                       (str "The") T) I).
Defined.

Lemma encodeText_only_spaces_witness :
  [32; 32; 32] <> [] /\
  Forall (fun c => c = 32) [32; 32; 32] /\
  observeEncode (encodeText asciiLower [32; 32; 32]
                   (tokenizerAfter asciiLower decimalString [])) =
  ([], [], Some [32; 32; 32], Some 0, Some 3).
Proof.
  assert (N : [32; 32; 32] <> []) by discriminate.
  assert (S : Forall (fun c => c = 32) [32; 32; 32])
    by (repeat constructor).
  split; [exact N|]. split; [exact S|].
  exact (encodeText_only_spaces asciiLower decimalString [] [32; 32; 32] N S).
Defined.

Lemma decimalString_no_minus (n : Z) :
  0 <= n -> hd 0 (decimalString n) <> 45.
Proof.
  intros H. unfold decimalString.
  replace (n <? 0) with false by (symmetry; apply Z.ltb_ge; lia).
  destruct (decimalNat_spec n H) as (D & N & _).
  destruct (decimalNat n) as [|d ds]; [contradiction|].
  inversion D as [|? ? Hd _]; subst. apply isDigit_range in Hd. simpl. lia.
Qed.

Lemma compressionRatio_not_negative_witness :
  (forall n, 0 <= n -> hd 0 (decimalString n) <> 45) /\
  match Stats.compressionRatio
          (fst (getEncodingStats asciiLower decimalString (str "the cat")
                  (tokenizerAfter asciiLower decimalString []))) with
  | RatioNumber n => n = 0
  | RatioString s => hd 0 s <> 45
  end.
Proof.
  split; [exact decimalString_no_minus|].
  exact (compressionRatio_not_negative asciiLower decimalString []
                                       (str "the cat") decimalString_no_minus).
Defined.
